(** * Membership sets and the single-flight dispatcher of the check pipeline

    A shallow embedding of [internal/graph/membershipset.go] and
    [internal/dispatch/singleflight/singleflight.go], followed by the
    properties of the membership algebra and of the dispatcher decorator.

    Conventions of the embedding.
    - A Go pointer that may be [nil] is an [option]; [None] is [nil].
    - A Go [map[string]V] is a [gmap string V].  A [range] over a map visits
      the entries in an order the language leaves open, so every loop takes
      the order of the visit as an explicit list, and the properties are
      stated for every list that enumerates the map.
    - A [panic] is the [Panicked] outcome of the [outcome] monad. *)

From stdpp Require Import gmap strings list fin_maps.
From Stdlib Require Import ZArith.
From Stdlib.Strings Require Import Ascii Byte.

Local Open Scope string_scope.

(** ** Outcomes: a returned value or a panic *)

Inductive outcome (A : Type) : Type :=
| Returned (a : A)
| Panicked (msg : string).
Arguments Returned {A} a.
Arguments Panicked {A} msg.

#[export] Instance outcome_ret : MRet outcome := fun A a => Returned a.
#[export] Instance outcome_bind : MBind outcome := fun A B f o =>
  match o with
  | Returned a => f a
  | Panicked msg => Panicked msg
  end.

(** [range] over a list of entries with a body that may panic. *)
Fixpoint range_outcome {A S : Type} (body : S → A → outcome S) (s : S) (entries : list A)
  : outcome S :=
  match entries with
  | [] => Returned s
  | x :: rest => s' ← body s x; range_outcome body s' rest
  end.

(** ** Protocol messages ([pkg/proto/core/v1] and [pkg/proto/dispatch/v1]) *)

Module v1.

Inductive CaveatOperation_Operation : Set :=
| CaveatOperation_UNKNOWN
| CaveatOperation_OR
| CaveatOperation_AND
| CaveatOperation_NOT.

Inductive DispatchCheckResponse_Membership : Set :=
| DispatchCheckResponse_UNKNOWN
| DispatchCheckResponse_NOT_MEMBER
| DispatchCheckResponse_MEMBER
| DispatchCheckResponse_CAVEATED_MEMBER.

Section caveats.
(** [core.ContextualizedCaveat] is declared outside the files at hand: a
    caveat name with its bound context.  It is kept abstract. *)
Context {ContextualizedCaveat : Type}.

(** [CaveatExpression] is a leaf caveat or an operation over children;
    the children are pointers, so a child may be [nil]. *)
#[warnings="-register-all"]
Inductive CaveatExpression : Type :=
| CaveatExpression_Caveat (Caveat : ContextualizedCaveat)
| CaveatExpression_Operation
    (Op : CaveatOperation_Operation) (Children : list (option CaveatExpression)).

Record DispatchCheckResponse_ResourceCheckResult : Type := {
  Membership : DispatchCheckResponse_Membership;
  Expression : option CaveatExpression;
}.

(** Of [core.RelationTuple] the code reads the [Caveat] field only. *)
Record RelationTuple : Type := {
  Caveat : option ContextualizedCaveat;
}.
End caveats.
Arguments CaveatExpression : clear implicits.
Arguments DispatchCheckResponse_ResourceCheckResult : clear implicits.
Arguments RelationTuple : clear implicits.

(** [ResponseMeta]: of its fields the code sets [DispatchCount] (a [uint32]). *)
Record ResponseMeta : Type := {
  DispatchCount : Z;
}.

Module DispatchCheckResponse.
Record t (ContextualizedCaveat : Type) : Type := {
  Metadata : option ResponseMeta;
  ResultsByResourceId :
    gmap string (DispatchCheckResponse_ResourceCheckResult ContextualizedCaveat);
}.
Arguments Metadata {_} _.
Arguments ResultsByResourceId {_} _.
End DispatchCheckResponse.

Module DispatchExpandResponse.
Record t (RelationTupleTreeNode : Type) : Type := {
  Metadata : option ResponseMeta;
  TreeNode : option RelationTupleTreeNode;
}.
Arguments Metadata {_} _.
Arguments TreeNode {_} _.
End DispatchExpandResponse.

End v1.

(** ** Package [graph]: the membership set *)

Module graph.
Import v1.

Section membershipset.
Context {ContextualizedCaveat : Type}.

Local Abbreviation CE := (CaveatExpression ContextualizedCaveat).
Local Abbreviation RCR := (DispatchCheckResponse_ResourceCheckResult ContextualizedCaveat).

(** [CheckResultsMap]: resource ID to [ResourceCheckResult].  The values
    are the messages themselves: a [nil] entry is not a value of the map. *)
Local Abbreviation CheckResultsMap := (gmap string RCR).

Record MembershipSet : Type := {
  membersByID : gmap string (option CE);
  hasDeterminedMember : bool;
}.

Definition NewMembershipSet : MembershipSet :=
  {| hasDeterminedMember := false; membersByID := ∅ |}.

Definition is_nil {A : Type} (p : option A) : bool :=
  match p with None => true | Some _ => false end.

Definition wrapCaveat (caveat : option ContextualizedCaveat) : option CE :=
  match caveat with
  | None => None
  | Some c => Some (CaveatExpression_Caveat c)
  end.

Definition caveatOr (first second : option CE) : option CE :=
  match first, second with
  | None, _ => second
  | Some _, None => first
  | Some _, Some _ =>
      Some (CaveatExpression_Operation CaveatOperation_OR [first; second])
  end.

Definition caveatAnd (first second : option CE) : option CE :=
  match first, second with
  | None, _ => second
  | Some _, None => first
  | Some _, Some _ =>
      Some (CaveatExpression_Operation CaveatOperation_AND [first; second])
  end.

Definition invert (ce : option CE) : option CE :=
  Some (CaveatExpression_Operation CaveatOperation_NOT [ce]).

Definition caveatSub (caveat subtraction : option CE) : outcome (option CE) :=
  let inversion := invert subtraction in
  match caveat with
  | None => Returned inversion
  | Some _ =>
      match subtraction with
      | None => Panicked "subtraction caveat expression is nil"
      | Some _ =>
          Returned
            (Some (CaveatExpression_Operation CaveatOperation_AND [caveat; inversion]))
      end
  end.

Definition addMember (resourceID : string) (caveatExpr : option CE)
    (ms : MembershipSet) : MembershipSet :=
  match membersByID ms !! resourceID with
  | None =>
      {| hasDeterminedMember := hasDeterminedMember ms || is_nil caveatExpr;
         membersByID := <[resourceID := caveatExpr]> (membersByID ms) |}
  | Some None => ms
  | Some (Some existing) =>
      match caveatExpr with
      | None =>
          {| hasDeterminedMember := true;
             membersByID := <[resourceID := None]> (membersByID ms) |}
      | Some _ =>
          {| hasDeterminedMember := hasDeterminedMember ms;
             membersByID :=
               <[resourceID := caveatOr (Some existing) caveatExpr]> (membersByID ms) |}
      end
  end.

Definition membershipSetFromMap (order : list (string * option CE)) : MembershipSet :=
  foldl (λ ms '(resourceID, result), addMember resourceID result ms)
        NewMembershipSet order.

Definition AddDirectMember (resourceID : string) (caveat : option ContextualizedCaveat)
    (ms : MembershipSet) : MembershipSet :=
  addMember resourceID (wrapCaveat caveat) ms.

Definition AddMemberViaRelationship (resourceID : string)
    (resourceCaveatExpression : option CE)
    (parentRelationship : RelationTuple ContextualizedCaveat)
    (ms : MembershipSet) : MembershipSet :=
  let intersection :=
    caveatAnd (wrapCaveat (Caveat parentRelationship)) resourceCaveatExpression in
  addMember resourceID intersection ms.

(** [order] is the order in which [range resultsMap] yields the entries. *)
Definition UnionWith (order : list (string * RCR)) (ms : MembershipSet) : MembershipSet :=
  foldl (λ ms '(resourceID, details), addMember resourceID (Expression details) ms)
        ms order.

(** First loop of [IntersectWith]: [range ms.membersByID], deleting the
    entry at hand when the results map has none for it. *)
Definition IntersectWith_prune (order : list (string * option CE))
    (resultsMap : CheckResultsMap) (members : gmap string (option CE))
  : gmap string (option CE) :=
  foldl (λ m '(resourceID, _),
           match resultsMap !! resourceID with
           | None => delete resourceID m
           | Some _ => m
           end)
        members order.

(** Body of the second loop of [IntersectWith]. *)
Definition IntersectWith_body (ms : MembershipSet) (entry : string * RCR)
  : MembershipSet :=
  let '(resourceID, details) := entry in
  match membersByID ms !! resourceID with
  | None => ms
  | Some existing =>
      if is_nil existing && is_nil (Expression details) then
        {| hasDeterminedMember := true; membersByID := membersByID ms |}
      else
        {| hasDeterminedMember := hasDeterminedMember ms;
           membersByID :=
             <[resourceID := caveatAnd existing (Expression details)]> (membersByID ms) |}
  end.

(** [membersOrder] is the order of [range ms.membersByID], [resultsOrder]
    the order of [range resultsMap]. *)
Definition IntersectWith (membersOrder : list (string * option CE))
    (resultsOrder : list (string * RCR))
    (resultsMap : CheckResultsMap) (ms : MembershipSet) : MembershipSet :=
  let pruned := IntersectWith_prune membersOrder resultsMap (membersByID ms) in
  foldl IntersectWith_body
        {| hasDeterminedMember := false; membersByID := pruned |}
        resultsOrder.

(** Body of the loop of [Subtract]; [expression] is the value the range
    yields for [resourceID]. *)
Definition Subtract_body (resultsMap : CheckResultsMap)
    (ms : MembershipSet) (entry : string * option CE) : outcome MembershipSet :=
  let '(resourceID, expression) := entry in
  match resultsMap !! resourceID with
  | Some details =>
      match Expression details with
      | None =>
          Returned {| hasDeterminedMember := hasDeterminedMember ms;
                      membersByID := delete resourceID (membersByID ms) |}
      | Some _ =>
          e ← caveatSub expression (Expression details);
          Returned {| hasDeterminedMember := hasDeterminedMember ms;
                      membersByID := <[resourceID := e]> (membersByID ms) |}
      end
  | None =>
      if is_nil expression then
        Returned {| hasDeterminedMember := true; membersByID := membersByID ms |}
      else Returned ms
  end.

(** [membersOrder] is the order of [range ms.membersByID].  Each iteration
    writes the entry it visits and no other, so the entries the range
    yields are those the map held on entry. *)
Definition Subtract (membersOrder : list (string * option CE))
    (resultsMap : CheckResultsMap) (ms : MembershipSet) : outcome MembershipSet :=
  range_outcome (Subtract_body resultsMap)
    {| hasDeterminedMember := false; membersByID := membersByID ms |}
    membersOrder.

Definition IsEmpty (ms : MembershipSet) : bool :=
  bool_decide (size (membersByID ms) = 0%nat).

Definition HasDeterminedMember (ms : MembershipSet) : bool :=
  hasDeterminedMember ms.

Definition AsCheckResultsMap (ms : MembershipSet) : CheckResultsMap :=
  (λ caveat,
     {| Membership :=
          if is_nil caveat then DispatchCheckResponse_MEMBER
          else DispatchCheckResponse_CAVEATED_MEMBER;
        Expression := caveat |}) <$> membersByID ms.

(** *** Notions the properties are stated with *)

(** [order] is an order in which a [range] can yield the entries of [m]. *)
Definition enumerates {V : Type} (order : list (string * V)) (m : gmap string V) : Prop :=
  order ≡ₚ map_to_list m.

(** The flag agrees with the map: it is set exactly when some member has no
    caveat expression. *)
Definition consistent (ms : MembershipSet) : Prop :=
  hasDeterminedMember ms = true ↔ ∃ id, membersByID ms !! id = Some None.

(** The membership sets that the exported operations build from the empty
    one.  An operation that panics builds nothing. *)
Inductive reachable : MembershipSet → Prop :=
| reachable_New : reachable NewMembershipSet
| reachable_AddDirectMember ms resourceID caveat :
    reachable ms → reachable (AddDirectMember resourceID caveat ms)
| reachable_AddMemberViaRelationship ms resourceID expr parent :
    reachable ms → reachable (AddMemberViaRelationship resourceID expr parent ms)
| reachable_UnionWith ms resultsMap order :
    reachable ms → enumerates order resultsMap → reachable (UnionWith order ms)
| reachable_IntersectWith ms resultsMap membersOrder resultsOrder :
    reachable ms →
    enumerates membersOrder (membersByID ms) →
    enumerates resultsOrder resultsMap →
    reachable (IntersectWith membersOrder resultsOrder resultsMap ms)
| reachable_Subtract ms resultsMap membersOrder ms' :
    reachable ms →
    enumerates membersOrder (membersByID ms) →
    Subtract membersOrder resultsMap ms = Returned ms' →
    reachable ms'.

(** What [addMember] leaves at an id that held [existing], and whether it
    sets the flag there. *)
Definition merged (existing : option (option CE)) (incoming : option CE) : option CE :=
  match existing with
  | None => incoming
  | Some None => None
  | Some (Some e) =>
      match incoming with
      | None => None
      | Some _ => caveatOr (Some e) incoming
      end
  end.

Definition merge_determines (existing : option (option CE)) (incoming : option CE) : bool :=
  match existing with
  | Some None => false
  | _ => is_nil incoming
  end.

(** What [caveatSub] returns for a subtrahend that is there. *)
Definition subtracted (caveat : option CE) (r : CE) : option CE :=
  match caveat with
  | None => invert (Some r)
  | Some _ =>
      Some (CaveatExpression_Operation CaveatOperation_AND [caveat; invert (Some r)])
  end.

(** One iteration of [Subtract] when [caveatSub] returns: what
    [Subtract_body] computes then. *)
Definition Subtract_step (resultsMap : CheckResultsMap) (ms : MembershipSet)
    (entry : string * option CE) : MembershipSet :=
  match resultsMap !! entry.1 with
  | Some details =>
      match Expression details with
      | None => {| hasDeterminedMember := hasDeterminedMember ms;
                   membersByID := delete entry.1 (membersByID ms) |}
      | Some r => {| hasDeterminedMember := hasDeterminedMember ms;
                     membersByID := <[entry.1 := subtracted entry.2 r]> (membersByID ms) |}
      end
  | None =>
      {| hasDeterminedMember := hasDeterminedMember ms || is_nil entry.2;
         membersByID := membersByID ms |}
  end.

End membershipset.
Arguments MembershipSet : clear implicits.

Abbreviation CheckResultsMap ContextualizedCaveat :=
  (gmap string (DispatchCheckResponse_ResourceCheckResult ContextualizedCaveat)).
End graph.


(** ** Package [singleflight]: the coalescing dispatcher *)

Module singleflight.
Import v1.

(** [google.golang.org/grpc/codes]. *)
Inductive codes_Code : Set :=
| codes_OK | codes_Canceled | codes_Unknown | codes_InvalidArgument
| codes_DeadlineExceeded | codes_NotFound | codes_AlreadyExists
| codes_PermissionDenied | codes_ResourceExhausted | codes_FailedPrecondition
| codes_Aborted | codes_OutOfRange | codes_Unimplemented | codes_Internal
| codes_Unavailable | codes_DataLoss | codes_Unauthenticated.

(** [encoding/hex]: two lower-case digits for each byte. *)
Definition hextable : string := "0123456789abcdef".

Definition hex_digit (n : N) : ascii :=
  match String.get (N.to_nat n) hextable with
  | Some c => c
  | None => "0"%char
  end.

Fixpoint hex_EncodeToString (src : list byte) : string :=
  match src with
  | [] => EmptyString
  | v :: rest =>
      String (hex_digit (N.shiftr (Byte.to_N v) 4))
        (String (hex_digit (N.land (Byte.to_N v) 15)) (hex_EncodeToString rest))
  end.

(** The value of a lower-case hexadecimal digit, as [encoding/hex] reads
    one back; 0 for any other character. *)
Definition hex_value (c : ascii) : N :=
  let n := N_of_ascii c in
  if (48 <=? n)%N && (n <=? 57)%N then (n - 48)%N
  else if (97 <=? n)%N && (n <=? 102)%N then (n - 87)%N
  else 0%N.

(** The value of a counter of a [prometheus.CounterVec]; a counter that was
    never incremented stands at 0. *)
Definition CounterVec_value (labelValues : list string) (vec : gmap (list string) nat)
  : nat :=
  default 0%nat (vec !! labelValues).

Definition strconv_FormatBool (b : bool) : string :=
  if b then "true" else "false".

(** A [prometheus.CounterVec]: one counter for each list of label values. *)
Definition CounterVec_Inc (labelValues : list string) (vec : gmap (list string) nat)
  : gmap (list string) nat :=
  <[labelValues := S (default 0%nat (vec !! labelValues))]> vec.

Section dispatcher.
(** Messages, streams and contexts that the dispatcher hands on unread. *)
Context {ContextualizedCaveat RelationTupleTreeNode : Type}.
Context {context_Context : Type}.
Context {DispatchCheckRequest DispatchExpandRequest : Type}.
Context {DispatchReachableResourcesRequest DispatchLookupResourcesRequest
         DispatchLookupSubjectsRequest : Type}.
Context {ReachableResourcesStream LookupResourcesStream LookupSubjectsStream : Type}.
Context {dispatch_ReadyState : Type}.
(** Errors that are not built by [status.Error]. *)
Context {foreign_error : Type}.
(** The state of everything around the dispatcher: the delegate and what it
    reaches, the scheduler, the other callers. *)
Context {World : Type}.
(** [resenje.org/singleflight]: the state of a [Group] with values [V]. *)
Context {Group : Type → Type}.

Local Abbreviation CheckResponse := (option (DispatchCheckResponse.t ContextualizedCaveat)).
Local Abbreviation ExpandResponse := (option (DispatchExpandResponse.t RelationTupleTreeNode)).

(** A non-nil Go [error]. *)
Inductive error : Type :=
| status_error (c : codes_Code) (msg : string)
| foreign (e : foreign_error).

(** [status.Error]: [nil] for [codes.OK], a status error otherwise. *)
Definition status_Error (c : codes_Code) (msg : string) : option error :=
  match c with
  | codes_OK => None
  | _ => Some (status_error c msg)
  end.

(** [status.Code]: the code of a status error, [Unknown] for any other. *)
Definition status_Code (err : option error) : codes_Code :=
  match err with
  | None => codes_OK
  | Some (status_error c _) => c
  | Some (foreign _) => codes_Unknown
  end.

(** [Group.Do]: given the group, the key and the function to run, the value,
    whether it was shared, and the error, with the group and the world
    afterwards.  What it does with the function is the library's business
    and that of the callers in flight. *)
Definition Group_Do_type : Type :=
  ∀ V : Type,
    Group V → context_Context → string →
    (context_Context → World → (V * option error) * World) →
    World → (V * bool * option error) * (Group V * World).

(** The interface [dispatch.Dispatcher]. *)
Record dispatch_Dispatcher : Type := {
  iface_DispatchCheck :
    context_Context → DispatchCheckRequest → World →
    (CheckResponse * option error) * World;
  iface_DispatchExpand :
    context_Context → DispatchExpandRequest → World →
    (ExpandResponse * option error) * World;
  iface_DispatchReachableResources :
    DispatchReachableResourcesRequest → ReachableResourcesStream → World →
    option error * World;
  iface_DispatchLookupResources :
    DispatchLookupResourcesRequest → LookupResourcesStream → World →
    option error * World;
  iface_DispatchLookupSubjects :
    DispatchLookupSubjectsRequest → LookupSubjectsStream → World →
    option error * World;
  iface_Close : World → option error * World;
  iface_ReadyState : World → dispatch_ReadyState * World;
}.

(** The interface [keys.Handler]. *)
Record keys_Handler : Type := {
  CheckDispatchKey :
    context_Context → DispatchCheckRequest → World → (list byte * option error) * World;
  ExpandDispatchKey :
    context_Context → DispatchExpandRequest → World → (list byte * option error) * World;
}.

Record Dispatcher : Type := {
  delegate : dispatch_Dispatcher;
  keyHandler : keys_Handler;
  checkGroup : Group CheckResponse;
  expandGroup : Group ExpandResponse;
}.

(** What a method of the dispatcher can change besides the dispatcher
    itself: the package counter [singleFlightCount] and the world. *)
Record Env : Type := {
  singleFlightCount : gmap (list string) nat;
  world : World;
}.

Context (Group_zero : ∀ V : Type, Group V).
Context (Group_Do : Group_Do_type).

Definition New (delegate : dispatch_Dispatcher) (handler : keys_Handler) : Dispatcher :=
  {| delegate := delegate; keyHandler := handler;
     checkGroup := Group_zero _; expandGroup := Group_zero _ |}.

Definition DispatchCheck (d : Dispatcher) (ctx : context_Context)
    (req : DispatchCheckRequest) (env : Env)
  : (CheckResponse * option error) * (Dispatcher * Env) :=
  let '((key, err), w1) := CheckDispatchKey (keyHandler d) ctx req (world env) in
  match err with
  | Some _ =>
      ((Some {| DispatchCheckResponse.Metadata := Some {| DispatchCount := 1 |};
                DispatchCheckResponse.ResultsByResourceId := ∅ |},
        status_Error codes_Internal "unexpected DispatchCheck error"),
       (d, {| singleFlightCount := singleFlightCount env; world := w1 |}))
  | None =>
      let keyString := hex_EncodeToString key in
      let '((v, isShared, err), (g, w2)) :=
        Group_Do _ (checkGroup d) ctx keyString
          (λ innerCtx, iface_DispatchCheck (delegate d) innerCtx req) w1 in
      let d' := {| delegate := delegate d; keyHandler := keyHandler d;
                   checkGroup := g; expandGroup := expandGroup d |} in
      let env' :=
        {| singleFlightCount :=
             CounterVec_Inc ["DispatchCheck"; strconv_FormatBool isShared]
               (singleFlightCount env);
           world := w2 |} in
      match err with
      | Some _ =>
          ((Some {| DispatchCheckResponse.Metadata := Some {| DispatchCount := 1 |};
                    DispatchCheckResponse.ResultsByResourceId := ∅ |}, err),
           (d', env'))
      | None => ((v, err), (d', env'))
      end
  end.

Definition DispatchExpand (d : Dispatcher) (ctx : context_Context)
    (req : DispatchExpandRequest) (env : Env)
  : (ExpandResponse * option error) * (Dispatcher * Env) :=
  let '((key, err), w1) := ExpandDispatchKey (keyHandler d) ctx req (world env) in
  match err with
  | Some _ =>
      ((Some {| DispatchExpandResponse.Metadata := Some {| DispatchCount := 1 |};
                DispatchExpandResponse.TreeNode := None |},
        status_Error codes_Internal "unexpected DispatchExpand error"),
       (d, {| singleFlightCount := singleFlightCount env; world := w1 |}))
  | None =>
      let keyString := hex_EncodeToString key in
      let '((v, isShared, err), (g, w2)) :=
        Group_Do _ (expandGroup d) ctx keyString
          (λ ictx, iface_DispatchExpand (delegate d) ictx req) w1 in
      let d' := {| delegate := delegate d; keyHandler := keyHandler d;
                   checkGroup := checkGroup d; expandGroup := g |} in
      let env' :=
        {| singleFlightCount :=
             CounterVec_Inc ["DispatchExpand"; strconv_FormatBool isShared]
               (singleFlightCount env);
           world := w2 |} in
      match err with
      | Some _ =>
          ((Some {| DispatchExpandResponse.Metadata := Some {| DispatchCount := 1 |};
                    DispatchExpandResponse.TreeNode := None |}, err),
           (d', env'))
      | None => ((v, err), (d', env'))
      end
  end.

(** A call handed to the delegate: the delegate acts on the world, the
    dispatcher and the counter stay as they are. *)
Definition to_delegate {A : Type} (call : World → A * World) (d : Dispatcher) (env : Env)
  : A * (Dispatcher * Env) :=
  let '(a, w) := call (world env) in
  (a, (d, {| singleFlightCount := singleFlightCount env; world := w |})).

Definition DispatchReachableResources (d : Dispatcher)
    (req : DispatchReachableResourcesRequest) (stream : ReachableResourcesStream)
    (env : Env) : option error * (Dispatcher * Env) :=
  to_delegate (iface_DispatchReachableResources (delegate d) req stream) d env.

Definition DispatchLookupResources (d : Dispatcher)
    (req : DispatchLookupResourcesRequest) (stream : LookupResourcesStream)
    (env : Env) : option error * (Dispatcher * Env) :=
  to_delegate (iface_DispatchLookupResources (delegate d) req stream) d env.

Definition DispatchLookupSubjects (d : Dispatcher)
    (req : DispatchLookupSubjectsRequest) (stream : LookupSubjectsStream)
    (env : Env) : option error * (Dispatcher * Env) :=
  to_delegate (iface_DispatchLookupSubjects (delegate d) req stream) d env.

Definition Close (d : Dispatcher) (env : Env) : option error * (Dispatcher * Env) :=
  to_delegate (iface_Close (delegate d)) d env.

Definition ReadyState (d : Dispatcher) (env : Env)
  : dispatch_ReadyState * (Dispatcher * Env) :=
  to_delegate (iface_ReadyState (delegate d)) d env.

(** [Group.Do] for a call that finds no call in flight under its key and is
    joined by none: it runs the function and shares nothing.  The group is
    as empty afterwards as before. *)
Definition solo_Do (V : Type) (g : unit) (ctx : context_Context) (key : string)
    (fn : context_Context → World → (V * option error) * World) (w : World)
  : (V * bool * option error) * (unit * World) :=
  let '((v, err), w') := fn ctx w in ((v, false, err), (g, w')).

End dispatcher.
End singleflight.


(** ** Concrete sets, maps and dispatchers

    The scenarios of the membership algebra with caveats named by strings,
    and a dispatcher over a delegate that fails on every check and expand. *)

Module scenarios.
Import v1 graph singleflight.

Definition C1 : CaveatExpression string := CaveatExpression_Caveat "C1".
Definition C2 : CaveatExpression string := CaveatExpression_Caveat "C2".

Definition member : DispatchCheckResponse_ResourceCheckResult string :=
  {| Membership := DispatchCheckResponse_MEMBER; Expression := None |}.

Definition caveated (e : CaveatExpression string)
  : DispatchCheckResponse_ResourceCheckResult string :=
  {| Membership := DispatchCheckResponse_CAVEATED_MEMBER; Expression := Some e |}.

(** [{r1: C1}], to be united with [{r1: C2, r2: member}]. *)
Definition set_r1 : MembershipSet string :=
  AddDirectMember "r1" (Some "C1") NewMembershipSet.

Definition union_results : list (string * DispatchCheckResponse_ResourceCheckResult string) :=
  [("r2", member); ("r1", caveated C2)].

(** [{r1: determined, r2: C1}], to be intersected with
    [{r2: member, r3: C2}]. *)
Definition set_r1_r2 : MembershipSet string :=
  AddDirectMember "r2" (Some "C1") (AddDirectMember "r1" None NewMembershipSet).

Definition set_r1_r2_order : list (string * option (CaveatExpression string)) :=
  [("r2", Some C1); ("r1", None)].

Definition intersect_results
  : list (string * DispatchCheckResponse_ResourceCheckResult string) :=
  [("r2", member); ("r3", caveated C2)].

(** [{r1: C1, r2: determined}], from which [{r1: C2, r2: member}] is
    subtracted. *)
Definition set_for_subtract : MembershipSet string :=
  AddDirectMember "r2" None (AddDirectMember "r1" (Some "C1") NewMembershipSet).

Definition set_for_subtract_order : list (string * option (CaveatExpression string)) :=
  [("r2", None); ("r1", Some C1)].

Definition subtract_results
  : list (string * DispatchCheckResponse_ResourceCheckResult string) :=
  [("r1", caveated C2); ("r2", member)].

(** A world that counts the calls of the delegate; requests, contexts and
    foreign errors are strings, no call is ever in flight. *)
Definition failing_delegate
  : @dispatch_Dispatcher string unit string string string string string string
      string string string unit string nat :=
  {| iface_DispatchCheck := λ _ _ w, ((None, Some (foreign "check failed")), S w);
     iface_DispatchExpand := λ _ _ w, ((None, Some (foreign "expand failed")), S w);
     iface_DispatchReachableResources := λ _ _ w, (None, S w);
     iface_DispatchLookupResources := λ _ _ w, (None, S w);
     iface_DispatchLookupSubjects := λ _ _ w, (None, S w);
     iface_Close := λ w, (None, w);
     iface_ReadyState := λ w, (tt, w) |}.

(** A key handler that cannot fingerprint the empty request. *)
Definition picky_handler : @keys_Handler string string string string nat :=
  {| CheckDispatchKey := λ _ req w,
       if decide (req = EmptyString) then ([], Some (foreign "no key"), w) else ([x2a], None, w);
     ExpandDispatchKey := λ _ req w,
       if decide (req = EmptyString) then ([], Some (foreign "no key"), w) else ([xff], None, w) |}.

Definition example_dispatcher :=
  @New string unit string string string string string string string string string
    unit string nat (λ _, unit) (λ _, tt) failing_delegate picky_handler.

Definition example_env : @Env nat := {| singleFlightCount := ∅; world := 0%nat |}.

End scenarios.

(** A delegate that answers every check and expand, and a dispatcher over
    it. *)

Module further_scenarios.
Import v1 graph singleflight scenarios.

Definition check_answer : DispatchCheckResponse.t string :=
  {| DispatchCheckResponse.Metadata := Some {| DispatchCount := 7 |};
     DispatchCheckResponse.ResultsByResourceId := {["r1" := member]} |}.

Definition expand_answer : DispatchExpandResponse.t unit :=
  {| DispatchExpandResponse.Metadata := Some {| DispatchCount := 3 |};
     DispatchExpandResponse.TreeNode := Some tt |}.

Definition answering_delegate
  : @dispatch_Dispatcher string unit string string string string string string
      string string string unit string nat :=
  {| iface_DispatchCheck := λ _ _ w, ((Some check_answer, None), S w);
     iface_DispatchExpand := λ _ _ w, ((Some expand_answer, None), S w);
     iface_DispatchReachableResources := λ _ _ w, (None, S w);
     iface_DispatchLookupResources := λ _ _ w, (None, S w);
     iface_DispatchLookupSubjects := λ _ _ w, (None, S w);
     iface_Close := λ w, (None, w);
     iface_ReadyState := λ w, (tt, w) |}.

Definition answering_dispatcher :=
  @New string unit string string string string string string string string string
    unit string nat (λ _, unit) (λ _, tt) answering_delegate picky_handler.

Definition union_results_other_order
  : list (string * DispatchCheckResponse_ResourceCheckResult string) :=
  [("r1", caveated C2); ("r2", member)].

End further_scenarios.

(** * Properties of the membership set *)

Section graph_properties.
Import v1 graph.
Context {ContextualizedCaveat : Type}.

Local Abbreviation CE := (CaveatExpression ContextualizedCaveat).
Local Abbreviation RCR := (DispatchCheckResponse_ResourceCheckResult ContextualizedCaveat).
Local Abbreviation MS := (MembershipSet ContextualizedCaveat).

Implicit Types (ms : MS) (id : string) (R : gmap string RCR).

Local Arguments IntersectWith_body : simpl never.
Local Arguments Subtract_body : simpl never.
Local Arguments Subtract_step : simpl never.

(** ** Enumerations of a map *)

Lemma enumerates_NoDup {V : Type} (order : list (string * V)) (m : gmap string V) :
  enumerates order m → NoDup order.*1.
Proof.
  intros Hp. unfold enumerates in Hp. rewrite Hp. apply NoDup_fst_map_to_list.
Qed.

Lemma enumerates_elem_of {V : Type} (order : list (string * V)) (m : gmap string V) k v :
  enumerates order m → (k, v) ∈ order ↔ m !! k = Some v.
Proof.
  intros Hp. unfold enumerates in Hp. rewrite Hp. apply elem_of_map_to_list.
Qed.

Lemma enumerates_keys {V : Type} (order : list (string * V)) (m : gmap string V) k :
  enumerates order m → k ∈ order.*1 ↔ is_Some (m !! k).
Proof.
  intros Hp. rewrite list_elem_of_fmap. split.
  - intros [[k' v] [-> Hin]]. exists v. by apply (enumerates_elem_of order m).
  - intros [v Hv]. exists (k, v). split; [done|]. by apply (enumerates_elem_of order m).
Qed.

(** ** [addMember] *)

Lemma addMember_lookup_eq ms id incoming :
  membersByID (addMember id incoming ms) !! id
  = Some (merged (membersByID ms !! id) incoming).
Proof.
  unfold addMember, merged.
  destruct (membersByID ms !! id) as [[e|]|] eqn:Hl; simpl.
  - destruct incoming; simpl; by rewrite lookup_insert_eq.
  - done.
  - by rewrite lookup_insert_eq.
Qed.

Lemma addMember_lookup_ne ms id id' incoming :
  id ≠ id' →
  membersByID (addMember id incoming ms) !! id' = membersByID ms !! id'.
Proof.
  intros Hne. unfold addMember.
  destruct (membersByID ms !! id) as [[e|]|]; simpl; [destruct incoming; simpl| |];
    by rewrite ?lookup_insert_ne.
Qed.

Lemma addMember_flag ms id incoming :
  hasDeterminedMember (addMember id incoming ms)
  = hasDeterminedMember ms || merge_determines (membersByID ms !! id) incoming.
Proof.
  unfold addMember, merge_determines.
  destruct (membersByID ms !! id) as [[e|]|]; simpl.
  - destruct incoming; simpl; by rewrite ?orb_true_r, ?orb_false_r.
  - by rewrite orb_false_r.
  - done.
Qed.

(** ** [UnionWith] *)

Lemma UnionWith_cons (entry : string * RCR) order ms :
  UnionWith (entry :: order) ms
  = UnionWith order (addMember entry.1 (Expression entry.2) ms).
Proof. by destruct entry. Qed.

Lemma UnionWith_lookup_notin order ms id :
  id ∉ order.*1 →
  membersByID (UnionWith order ms) !! id = membersByID ms !! id.
Proof.
  revert ms. induction order as [|[k d] order IH]; intros ms Hnotin; [done|].
  rewrite UnionWith_cons. simpl in *.
  apply not_elem_of_cons in Hnotin as [Hne Hnotin].
  rewrite IH by done. by apply addMember_lookup_ne.
Qed.

Lemma UnionWith_lookup_in order ms id d :
  NoDup order.*1 → (id, d) ∈ order →
  membersByID (UnionWith order ms) !! id
  = Some (merged (membersByID ms !! id) (Expression d)).
Proof.
  revert ms. induction order as [|[k dk] order IH]; intros ms Hnd Hin.
  - by apply elem_of_nil in Hin.
  - rewrite UnionWith_cons. simpl in *.
    apply NoDup_cons in Hnd as [Hk Hnd].
    apply elem_of_cons in Hin as [Heq|Hin].
    + injection Heq as -> ->.
      rewrite UnionWith_lookup_notin by done. apply addMember_lookup_eq.
    + assert (k ≠ id) as Hne.
      { intros ->. apply Hk. apply list_elem_of_fmap. by exists (id, d). }
      rewrite IH by done. by rewrite addMember_lookup_ne.
Qed.

Lemma UnionWith_flag order ms :
  NoDup order.*1 →
  hasDeterminedMember (UnionWith order ms) = true ↔
  hasDeterminedMember ms = true ∨
  ∃ id d, (id, d) ∈ order ∧ merge_determines (membersByID ms !! id) (Expression d) = true.
Proof.
  revert ms. induction order as [|[k dk] order IH]; intros ms Hnd.
  - simpl. split; [by left|]. intros [?|(id & d & Hin & _)]; [done|].
    by apply elem_of_nil in Hin.
  - rewrite UnionWith_cons. simpl in *.
    apply NoDup_cons in Hnd as [Hk Hnd].
    rewrite IH by done. rewrite addMember_flag, orb_true_iff.
    assert (∀ id d, (id, d) ∈ order → k ≠ id) as Hfresh.
    { intros id d Hin ->. apply Hk. apply list_elem_of_fmap. by exists (id, d). }
    split.
    + intros [[?|Hdet]|(id & d & Hin & Hdet)].
      * by left.
      * right. exists k, dk. split; [apply elem_of_cons; by left|done].
      * right. exists id, d. split; [apply elem_of_cons; by right|].
        by rewrite addMember_lookup_ne in Hdet by eauto.
    + intros [?|(id & d & Hin & Hdet)]; [by left; left|].
      apply elem_of_cons in Hin as [Heq|Hin].
      * injection Heq as -> ->. by left; right.
      * right. exists id, d. split; [done|].
        by rewrite addMember_lookup_ne by eauto.
Qed.


(** ** [IntersectWith] *)

Lemma IntersectWith_prune_lookup order R (m : gmap string (option CE)) id :
  IntersectWith_prune order R m !! id
  = match R !! id with
    | None => if decide (id ∈ order.*1) then None else m !! id
    | Some _ => m !! id
    end.
Proof.
  revert m. induction order as [|[k e] order IH]; intros m.
  - change (IntersectWith_prune [] R m) with m.
    destruct (R !! id); [done|]. case_decide as Hin; [|done].
    by apply elem_of_nil in Hin.
  - change (IntersectWith_prune ((k, e) :: order) R m)
      with (IntersectWith_prune order R
              (match R !! k with None => delete k m | Some _ => m end)).
    rewrite IH. destruct (R !! id) eqn:Hid.
    + destruct (R !! k) eqn:Hk; [done|].
      rewrite lookup_delete_ne; [done|]. intros ->. congruence.
    + rewrite fmap_cons. cbn [fst].
      destruct (decide (id ∈ order.*1)) as [Hin|Hnotin];
        destruct (decide (id ∈ k :: order.*1)) as [Hin'|Hnotin']; try done.
      * exfalso. apply Hnotin'. apply elem_of_cons. by right.
      * apply elem_of_cons in Hin' as [->|?]; [|done].
        by rewrite Hid, lookup_delete_eq.
      * apply not_elem_of_cons in Hnotin' as [Hne _].
        destruct (R !! k); [done|]. by rewrite lookup_delete_ne.
Qed.

Lemma IntersectWith_body_lookup_ne ms k d id :
  k ≠ id →
  membersByID (IntersectWith_body ms (k, d)) !! id = membersByID ms !! id.
Proof.
  intros Hne. unfold IntersectWith_body.
  destruct (membersByID ms !! k) as [existing|]; [|done].
  destruct (is_nil existing && is_nil (Expression d)); simpl; [done|].
  by rewrite lookup_insert_ne.
Qed.

Lemma caveatAnd_nil_nil (existing r : option CE) :
  is_nil existing && is_nil r = true → caveatAnd existing r = None.
Proof. by destruct existing, r. Qed.

Lemma caveatAnd_is_nil (existing r : option CE) :
  is_nil (caveatAnd existing r) = is_nil existing && is_nil r.
Proof. by destruct existing, r. Qed.

Lemma IntersectWith_body_lookup_eq ms k d :
  membersByID (IntersectWith_body ms (k, d)) !! k
  = (λ existing, caveatAnd existing (Expression d)) <$> membersByID ms !! k.
Proof.
  unfold IntersectWith_body.
  destruct (membersByID ms !! k) as [existing|] eqn:Hk; [|by rewrite Hk].
  destruct (is_nil existing && is_nil (Expression d)) eqn:Hnil; simpl.
  - rewrite Hk. by destruct existing, (Expression d).
  - by rewrite lookup_insert_eq.
Qed.

Lemma IntersectWith_body_flag ms k d :
  hasDeterminedMember (IntersectWith_body ms (k, d))
  = hasDeterminedMember ms
    || match membersByID ms !! k with
       | Some existing => is_nil existing && is_nil (Expression d)
       | None => false
       end.
Proof.
  unfold IntersectWith_body.
  destruct (membersByID ms !! k) as [existing|]; [|by rewrite orb_false_r].
  destruct (is_nil existing && is_nil (Expression d)); simpl;
    by rewrite ?orb_true_r, ?orb_false_r.
Qed.

Lemma IntersectWith_loop_lookup_notin (order : list (string * RCR)) ms id :
  id ∉ order.*1 →
  membersByID (foldl IntersectWith_body ms order) !! id = membersByID ms !! id.
Proof.
  revert ms. induction order as [|[k d] order IH]; intros ms Hnotin; [done|].
  simpl in *. apply not_elem_of_cons in Hnotin as [Hne Hnotin].
  rewrite IH by done. by apply IntersectWith_body_lookup_ne.
Qed.

Lemma IntersectWith_loop_lookup_in (order : list (string * RCR)) ms id d :
  NoDup order.*1 → (id, d) ∈ order →
  membersByID (foldl IntersectWith_body ms order) !! id
  = (λ existing, caveatAnd existing (Expression d)) <$> membersByID ms !! id.
Proof.
  revert ms. induction order as [|[k dk] order IH]; intros ms Hnd Hin.
  - by apply elem_of_nil in Hin.
  - simpl in *. apply NoDup_cons in Hnd as [Hk Hnd].
    apply elem_of_cons in Hin as [Heq|Hin].
    + injection Heq as -> ->.
      rewrite IntersectWith_loop_lookup_notin by done.
      apply IntersectWith_body_lookup_eq.
    + assert (k ≠ id) as Hne.
      { intros ->. apply Hk. apply list_elem_of_fmap. by exists (id, d). }
      rewrite IH by done. by rewrite IntersectWith_body_lookup_ne.
Qed.

Lemma IntersectWith_loop_flag (order : list (string * RCR)) ms :
  NoDup order.*1 →
  hasDeterminedMember (foldl IntersectWith_body ms order) = true ↔
  hasDeterminedMember ms = true ∨
  ∃ id d, (id, d) ∈ order ∧ membersByID ms !! id = Some None ∧ Expression d = None.
Proof.
  revert ms. induction order as [|[k dk] order IH]; intros ms Hnd.
  - simpl. split; [by left|]. intros [?|(id & d & Hin & _)]; [done|].
    by apply elem_of_nil in Hin.
  - simpl in *. apply NoDup_cons in Hnd as [Hk Hnd].
    rewrite IH by done. rewrite IntersectWith_body_flag, orb_true_iff.
    assert (∀ id d, (id, d) ∈ order → k ≠ id) as Hfresh.
    { intros id d Hin ->. apply Hk. apply list_elem_of_fmap. by exists (id, d). }
    split.
    + intros [[?|Hdet]|(id & d & Hin & Hl & Hd)].
      * by left.
      * right. exists k, dk. split; [apply elem_of_cons; by left|].
        destruct (membersByID ms !! k) as [[?|]|]; try done.
        by destruct (Expression dk).
      * right. exists id, d. split; [apply elem_of_cons; by right|].
        by rewrite IntersectWith_body_lookup_ne in Hl by eauto.
    + intros [?|(id & d & Hin & Hl & Hd)]; [by left; left|].
      apply elem_of_cons in Hin as [Heq|Hin].
      * injection Heq as -> ->. left; right. by rewrite Hl, Hd.
      * right. exists id, d. split; [done|].
        by rewrite IntersectWith_body_lookup_ne by eauto.
Qed.

(** The members after [IntersectWith], id by id. *)
Lemma IntersectWith_lookup ms R membersOrder resultsOrder id :
  enumerates membersOrder (membersByID ms) → enumerates resultsOrder R →
  membersByID (IntersectWith membersOrder resultsOrder R ms) !! id
  = match R !! id with
    | None => None
    | Some d => (λ existing, caveatAnd existing (Expression d)) <$> membersByID ms !! id
    end.
Proof.
  intros Hm Hr. unfold IntersectWith.
  pose proof (enumerates_NoDup _ _ Hr) as Hnd.
  destruct (R !! id) as [d|] eqn:Hid.
  - rewrite (IntersectWith_loop_lookup_in _ _ id d); simpl.
    + by rewrite IntersectWith_prune_lookup, Hid.
    + done.
    + by apply (enumerates_elem_of resultsOrder R).
  - rewrite IntersectWith_loop_lookup_notin; simpl.
    + rewrite IntersectWith_prune_lookup, Hid. case_decide as Hin; [done|].
      rewrite (enumerates_keys _ _ _ Hm) in Hin.
      destruct (membersByID ms !! id); [|done]. exfalso. by apply Hin.
    + rewrite (enumerates_keys _ _ _ Hr), Hid. by intros [? ?].
Qed.

Lemma IntersectWith_flag ms R membersOrder resultsOrder :
  enumerates membersOrder (membersByID ms) → enumerates resultsOrder R →
  hasDeterminedMember (IntersectWith membersOrder resultsOrder R ms) = true ↔
  ∃ id d, R !! id = Some d ∧ membersByID ms !! id = Some None ∧ Expression d = None.
Proof.
  intros Hm Hr. unfold IntersectWith.
  rewrite IntersectWith_loop_flag by by eapply enumerates_NoDup. simpl.
  split.
  - intros [?|(id & d & Hin & Hl & Hd)]; [done|].
    apply (enumerates_elem_of resultsOrder R) in Hin; [|done].
    rewrite IntersectWith_prune_lookup, Hin in Hl. by exists id, d.
  - intros (id & d & Hid & Hl & Hd). right. exists id, d.
    split; [by apply (enumerates_elem_of resultsOrder R)|].
    by rewrite IntersectWith_prune_lookup, Hid.
Qed.


(** ** [caveatSub] and [Subtract] *)

Lemma caveatSub_Some (caveat : option CE) (r : CE) :
  caveatSub caveat (Some r) = Returned (subtracted caveat r).
Proof. by destruct caveat. Qed.

Lemma Subtract_body_returns R ms entry :
  Subtract_body R ms entry = Returned (Subtract_step R ms entry).
Proof.
  destruct entry as [k e]. unfold Subtract_body, Subtract_step. simpl.
  destruct (R !! k) as [d|].
  - destruct (Expression d) as [r|]; [|done]. by rewrite caveatSub_Some.
  - destruct e; simpl; [rewrite orb_false_r; by destruct ms|by rewrite orb_true_r].
Qed.

Lemma range_Subtract_body_returns R ms order :
  range_outcome (Subtract_body R) ms order = Returned (foldl (Subtract_step R) ms order).
Proof.
  revert ms. induction order as [|entry order IH]; intros ms; [done|].
  simpl. rewrite Subtract_body_returns. simpl. apply IH.
Qed.

Lemma Subtract_step_lookup_ne R ms k e id :
  k ≠ id →
  membersByID (Subtract_step R ms (k, e)) !! id = membersByID ms !! id.
Proof.
  intros Hne. unfold Subtract_step. simpl.
  destruct (R !! k) as [d|]; [|done].
  destruct (Expression d); simpl; by rewrite ?lookup_insert_ne, ?lookup_delete_ne.
Qed.

Lemma Subtract_step_lookup_eq R ms k e :
  membersByID (Subtract_step R ms (k, e)) !! k
  = match R !! k with
    | None => membersByID ms !! k
    | Some d =>
        match Expression d with
        | None => None
        | Some r => Some (subtracted e r)
        end
    end.
Proof.
  unfold Subtract_step. simpl.
  destruct (R !! k) as [d|]; [|done].
  destruct (Expression d); simpl; by rewrite ?lookup_insert_eq, ?lookup_delete_eq.
Qed.

Lemma Subtract_step_flag R ms k e :
  hasDeterminedMember (Subtract_step R ms (k, e))
  = hasDeterminedMember ms
    || match R !! k with None => is_nil e | Some _ => false end.
Proof.
  unfold Subtract_step. simpl.
  destruct (R !! k) as [d|]; [|done].
  destruct (Expression d); simpl; by rewrite orb_false_r.
Qed.

Lemma Subtract_loop_lookup_notin R (order : list (string * option CE)) ms id :
  id ∉ order.*1 →
  membersByID (foldl (Subtract_step R) ms order) !! id = membersByID ms !! id.
Proof.
  revert ms. induction order as [|[k e] order IH]; intros ms Hnotin; [done|].
  simpl in *. apply not_elem_of_cons in Hnotin as [Hne Hnotin].
  rewrite IH by done. by apply Subtract_step_lookup_ne.
Qed.

Lemma Subtract_loop_lookup_in R (order : list (string * option CE)) ms id e :
  NoDup order.*1 → (id, e) ∈ order →
  membersByID (foldl (Subtract_step R) ms order) !! id
  = match R !! id with
    | None => membersByID ms !! id
    | Some d =>
        match Expression d with
        | None => None
        | Some r => Some (subtracted e r)
        end
    end.
Proof.
  revert ms. induction order as [|[k ek] order IH]; intros ms Hnd Hin.
  - by apply elem_of_nil in Hin.
  - simpl in *. apply NoDup_cons in Hnd as [Hk Hnd].
    apply elem_of_cons in Hin as [Heq|Hin].
    + injection Heq as -> ->.
      rewrite Subtract_loop_lookup_notin by done.
      apply Subtract_step_lookup_eq.
    + assert (k ≠ id) as Hne.
      { intros ->. apply Hk. apply list_elem_of_fmap. by exists (id, e). }
      rewrite IH by done. by rewrite Subtract_step_lookup_ne.
Qed.

Lemma Subtract_loop_flag R (order : list (string * option CE)) ms :
  hasDeterminedMember (foldl (Subtract_step R) ms order) = true ↔
  hasDeterminedMember ms = true ∨ ∃ id, (id, None) ∈ order ∧ R !! id = None.
Proof.
  revert ms. induction order as [|[k ek] order IH]; intros ms.
  - simpl. split; [by left|]. intros [?|(id & Hin & _)]; [done|].
    by apply elem_of_nil in Hin.
  - simpl. rewrite IH, Subtract_step_flag, orb_true_iff. split.
    + intros [[?|Hdet]|(id & Hin & Hid)].
      * by left.
      * right. exists k. destruct (R !! k); [done|]. destruct ek; [done|].
        split; [apply elem_of_cons; by left|done].
      * right. exists id. split; [apply elem_of_cons; by right|done].
    + intros [?|(id & Hin & Hid)]; [by left; left|].
      apply elem_of_cons in Hin as [Heq|Hin].
      * injection Heq as Hk He. subst k ek. left; right. by rewrite Hid.
      * right. by exists id.
Qed.

(** [Subtract] returns, for any results map and any order of the range. *)
Lemma Subtract_returns R ms membersOrder :
  Subtract membersOrder R ms
  = Returned (foldl (Subtract_step R)
                {| hasDeterminedMember := false; membersByID := membersByID ms |}
                membersOrder).
Proof. apply range_Subtract_body_returns. Qed.

(** The members after [Subtract], id by id. *)
Lemma Subtract_lookup ms R membersOrder ms' id :
  enumerates membersOrder (membersByID ms) →
  Subtract membersOrder R ms = Returned ms' →
  membersByID ms' !! id
  = match membersByID ms !! id, R !! id with
    | None, _ => None
    | Some e, None => Some e
    | Some e, Some d =>
        match Expression d with
        | None => None
        | Some r => Some (subtracted e r)
        end
    end.
Proof.
  intros Hm. rewrite Subtract_returns. intros [= <-].
  destruct (membersByID ms !! id) as [e|] eqn:Hid.
  - rewrite (Subtract_loop_lookup_in _ _ _ id e); simpl.
    + by rewrite Hid.
    + by eapply enumerates_NoDup.
    + by apply (enumerates_elem_of membersOrder (membersByID ms)).
  - rewrite Subtract_loop_lookup_notin; [done|].
    rewrite (enumerates_keys _ _ _ Hm), Hid. by intros [? ?].
Qed.

Lemma Subtract_flag ms R membersOrder ms' :
  enumerates membersOrder (membersByID ms) →
  Subtract membersOrder R ms = Returned ms' →
  hasDeterminedMember ms' = true ↔
  ∃ id, membersByID ms !! id = Some None ∧ R !! id = None.
Proof.
  intros Hm. rewrite Subtract_returns. intros [= <-].
  rewrite Subtract_loop_flag. simpl. split.
  - intros [?|(id & Hin & Hid)]; [done|]. exists id.
    split; [by apply (enumerates_elem_of membersOrder (membersByID ms))|done].
  - intros (id & Hl & Hid). right. exists id.
    split; [by apply (enumerates_elem_of membersOrder (membersByID ms))|done].
Qed.

Lemma subtracted_is_Some (e : option CE) (r : CE) : is_nil (subtracted e r) = false.
Proof. by destruct e. Qed.

(** ** The flag is a cache of the map *)

Lemma consistent_NewMembershipSet : consistent (@NewMembershipSet ContextualizedCaveat).
Proof.
  unfold consistent. simpl. split; [done|]. intros [id Hid].
  by rewrite lookup_empty in Hid.
Qed.

Lemma merged_None_inv (existing : option (option CE)) incoming :
  merged existing incoming = None →
  existing = Some None ∨ merge_determines existing incoming = true.
Proof.
  destruct existing as [[e|]|]; simpl.
  - destruct incoming; [done|]. by right.
  - by left.
  - intros ->. by right.
Qed.

Lemma merge_determines_merged (existing : option (option CE)) incoming :
  merge_determines existing incoming = true → merged existing incoming = None.
Proof. destruct existing as [[e|]|], incoming; done. Qed.

Lemma consistent_addMember ms id incoming :
  consistent ms → consistent (addMember id incoming ms).
Proof.
  unfold consistent. intros Hms. rewrite addMember_flag, orb_true_iff. split.
  - intros [Hflag|Hdet].
    + apply Hms in Hflag as [id0 Hid0]. exists id0.
      destruct (decide (id = id0)) as [->|Hne].
      * by rewrite addMember_lookup_eq, Hid0.
      * by rewrite addMember_lookup_ne.
    + exists id. rewrite addMember_lookup_eq. f_equal.
      by apply merge_determines_merged.
  - intros [id0 Hid0]. destruct (decide (id = id0)) as [->|Hne].
    + rewrite addMember_lookup_eq in Hid0. injection Hid0 as Hmerged.
      apply merged_None_inv in Hmerged as [Hex|Hdet]; [|by right].
      left. apply Hms. by exists id0.
    + rewrite addMember_lookup_ne in Hid0 by done. left. apply Hms. by exists id0.
Qed.

Lemma consistent_UnionWith (order : list (string * RCR)) ms :
  consistent ms → consistent (UnionWith order ms).
Proof.
  revert ms. induction order as [|[k d] order IH]; intros ms Hms; [done|].
  rewrite UnionWith_cons. apply IH. by apply consistent_addMember.
Qed.

Lemma consistent_IntersectWith ms R membersOrder resultsOrder :
  enumerates membersOrder (membersByID ms) → enumerates resultsOrder R →
  consistent (IntersectWith membersOrder resultsOrder R ms).
Proof.
  intros Hm Hr. unfold consistent. rewrite IntersectWith_flag by done. split.
  - intros (id & d & Hid & Hl & Hd). exists id.
    rewrite IntersectWith_lookup by done. by rewrite Hid, Hl, Hd.
  - intros [id Hid0]. rewrite IntersectWith_lookup in Hid0 by done.
    destruct (R !! id) as [d|] eqn:Hid; [|done].
    destruct (membersByID ms !! id) as [e|] eqn:Hl; [|done].
    injection Hid0 as Hand. exists id, d.
    pose proof (caveatAnd_is_nil e (Expression d)) as Hnil. rewrite Hand in Hnil.
    by destruct e, (Expression d).
Qed.

Lemma consistent_Subtract ms R membersOrder ms' :
  enumerates membersOrder (membersByID ms) →
  Subtract membersOrder R ms = Returned ms' →
  consistent ms'.
Proof.
  intros Hm Hsub. unfold consistent. rewrite (Subtract_flag _ _ _ _ Hm Hsub). split.
  - intros (id & Hl & Hid). exists id.
    by rewrite (Subtract_lookup _ _ _ _ id Hm Hsub), Hl, Hid.
  - intros [id Hid0]. rewrite (Subtract_lookup _ _ _ _ id Hm Hsub) in Hid0.
    exists id. destruct (membersByID ms !! id) as [e|]; [|done].
    destruct (R !! id) as [d|]; [|done].
    destruct (Expression d) as [r|]; [|done].
    injection Hid0 as Hsubd. pose proof (subtracted_is_Some e r) as Hnil.
    by rewrite Hsubd in Hnil.
Qed.



(** C4. [caveatSub] with an absent subtrahend: with a minuend that is there
    it panics; with an absent minuend it does not, since the test of the
    minuend comes first and returns the inversion of [nil], a [NOT] node over
    a [nil] child. *)
Theorem caveatSub_absent_subtrahend :
  (∀ caveat : CE,
     caveatSub (Some caveat) None = Panicked "subtraction caveat expression is nil") ∧
  @caveatSub ContextualizedCaveat None None
  = Returned (Some (CaveatExpression_Operation CaveatOperation_NOT [None])).
Proof. split; [intros caveat|]; reflexivity. Qed.

(** C5. Every membership set built from the empty one by [AddDirectMember],
    [AddMemberViaRelationship], [UnionWith], [IntersectWith] and [Subtract]
    has its flag set exactly when some id of the map has no caveat
    expression. *)
Theorem hasDeterminedMember_invariant ms :
  reachable ms →
  hasDeterminedMember ms = true ↔ ∃ id, membersByID ms !! id = Some None.
Proof.
  intros Hreach. change (consistent ms).
  induction Hreach as
    [ | ms id caveat _ IH | ms id expr parent _ IH | ms R order _ IH _
      | ms R mo ro _ _ Hm Hr | ms R mo ms' _ _ Hm Hsub ].
  - apply consistent_NewMembershipSet.
  - by apply consistent_addMember.
  - by apply consistent_addMember.
  - by apply consistent_UnionWith.
  - by apply consistent_IntersectWith.
  - by apply (consistent_Subtract ms R mo).
Qed.

(** C6. Converting a membership set with [AsCheckResultsMap] and taking the
    map into a new set with [UnionWith] gives back the same ids with the
    same expressions, whatever the order of the range; the flag of the new
    set is set exactly when some id has no expression, so for a set whose
    flag agrees with its map the new set is the set itself. *)
Theorem AsCheckResultsMap_UnionWith_roundtrip ms order :
  enumerates order (AsCheckResultsMap ms) →
  let ms' := UnionWith order NewMembershipSet in
  membersByID ms' = membersByID ms ∧
  (hasDeterminedMember ms' = true ↔ ∃ id, membersByID ms !! id = Some None) ∧
  (consistent ms → ms' = ms).
Proof.
  intros Henum ms'.
  assert (membersByID ms' = membersByID ms) as Hmembers.
  { apply map_eq. intros id. subst ms'.
    destruct (AsCheckResultsMap ms !! id) as [d|] eqn:Hid.
    - rewrite (UnionWith_lookup_in _ _ id d).
      + unfold AsCheckResultsMap in Hid. rewrite lookup_fmap in Hid.
        simpl. rewrite lookup_empty. simpl.
        destruct (membersByID ms !! id) as [e|]; [|done].
        injection Hid as <-. done.
      + by eapply enumerates_NoDup.
      + by apply (enumerates_elem_of order (AsCheckResultsMap ms)).
    - rewrite UnionWith_lookup_notin.
      + unfold AsCheckResultsMap in Hid. rewrite lookup_fmap in Hid.
        simpl. rewrite lookup_empty.
        by destruct (membersByID ms !! id).
      + rewrite (enumerates_keys _ _ _ Henum), Hid. by intros [? ?]. }
  assert (consistent ms') as Hcons.
  { apply consistent_UnionWith, consistent_NewMembershipSet. }
  assert (hasDeterminedMember ms' = true ↔ ∃ id, membersByID ms !! id = Some None)
    as Hflag.
  { unfold consistent in Hcons. by rewrite Hmembers in Hcons. }
  split; [done|]. split; [done|].
  intros Hms. unfold consistent in Hms.
  destruct ms' as [m' b'], ms as [m b]. simpl in *. subst m'. f_equal.
  destruct b', b; try done.
  - symmetry. by apply Hms, Hflag.
  - by apply Hflag, Hms.
Qed.

End graph_properties.


(** * Properties of the single-flight dispatcher *)

Section singleflight_properties.
Import v1 singleflight.
Context {ContextualizedCaveat RelationTupleTreeNode : Type}.
Context {context_Context : Type}.
Context {DispatchCheckRequest DispatchExpandRequest : Type}.
Context {DispatchReachableResourcesRequest DispatchLookupResourcesRequest
         DispatchLookupSubjectsRequest : Type}.
Context {ReachableResourcesStream LookupResourcesStream LookupSubjectsStream : Type}.
Context {dispatch_ReadyState : Type}.
Context {foreign_error : Type}.
Context {World : Type}.
Context {Group : Type → Type}.

Local Abbreviation SFD :=
  (@Dispatcher ContextualizedCaveat RelationTupleTreeNode context_Context
     DispatchCheckRequest DispatchExpandRequest
     DispatchReachableResourcesRequest DispatchLookupResourcesRequest
     DispatchLookupSubjectsRequest
     ReachableResourcesStream LookupResourcesStream LookupSubjectsStream
     dispatch_ReadyState foreign_error World Group).
Local Abbreviation Do_type := (@Group_Do_type context_Context foreign_error World Group).

Implicit Types (d : SFD) (Do : Do_type) (env : @Env World).

(** The response built on the error paths of [DispatchCheck]. *)
Lemma DispatchCheck_error_response Do d ctx req env resp err st :
  DispatchCheck Do d ctx req env = ((resp, Some err), st) →
  ∃ r m, resp = Some r ∧ DispatchCheckResponse.Metadata r = Some m ∧ DispatchCount m = 1%Z.
Proof.
  unfold DispatchCheck.
  destruct (CheckDispatchKey _ _ _ _) as [[key [e|]] w1].
  - intros [= <- _ _]. by eexists _, _.
  - destruct (Do _ _ _ _ _ _) as [[[v shared] [e|]] [g w2]].
    + intros [= <- _ _]. by eexists _, _.
    + intros Heq. discriminate Heq.
Qed.

Lemma DispatchExpand_error_response Do d ctx req env resp err st :
  DispatchExpand Do d ctx req env = ((resp, Some err), st) →
  ∃ r m, resp = Some r ∧ DispatchExpandResponse.Metadata r = Some m ∧ DispatchCount m = 1%Z.
Proof.
  unfold DispatchExpand.
  destruct (ExpandDispatchKey _ _ _ _) as [[key [e|]] w1].
  - intros [= <- _ _]. by eexists _, _.
  - destruct (Do _ _ _ _ _ _) as [[[v shared] [e|]] [g w2]].
    + intros [= <- _ _]. by eexists _, _.
    + intros Heq. discriminate Heq.
Qed.

(** C7. On every error outcome of [DispatchCheck] and of [DispatchExpand]
    the response is there and carries metadata with dispatch count 1.  When
    the key handler fails, the error is an [Internal] status error, and the
    groups and the counter are as before, whatever [Group.Do] would have
    done; when [Group.Do] hands back an error, that error is returned. *)
Theorem error_paths_carry_dispatch_count Do d env :
  (∀ ctx req resp err st,
     DispatchCheck Do d ctx req env = ((resp, Some err), st) →
     ∃ r m, resp = Some r ∧ DispatchCheckResponse.Metadata r = Some m ∧
            DispatchCount m = 1%Z) ∧
  (∀ ctx req key e w,
     CheckDispatchKey (keyHandler d) ctx req (world env) = ((key, Some e), w) →
     DispatchCheck Do d ctx req env
     = ((Some {| DispatchCheckResponse.Metadata := Some {| DispatchCount := 1 |};
                 DispatchCheckResponse.ResultsByResourceId := ∅ |},
         Some (status_error codes_Internal "unexpected DispatchCheck error")),
        (d, {| singleFlightCount := singleFlightCount env; world := w |}))) ∧
  (∀ ctx req key w1 v shared err g w2,
     CheckDispatchKey (keyHandler d) ctx req (world env) = ((key, None), w1) →
     Do _ (checkGroup d) ctx (hex_EncodeToString key)
        (λ innerCtx, iface_DispatchCheck (delegate d) innerCtx req) w1
     = ((v, shared, Some err), (g, w2)) →
     (DispatchCheck Do d ctx req env).1
     = (Some {| DispatchCheckResponse.Metadata := Some {| DispatchCount := 1 |};
                DispatchCheckResponse.ResultsByResourceId := ∅ |},
        Some err)) ∧
  (∀ ctx req resp err st,
     DispatchExpand Do d ctx req env = ((resp, Some err), st) →
     ∃ r m, resp = Some r ∧ DispatchExpandResponse.Metadata r = Some m ∧
            DispatchCount m = 1%Z) ∧
  (∀ ctx req key e w,
     ExpandDispatchKey (keyHandler d) ctx req (world env) = ((key, Some e), w) →
     DispatchExpand Do d ctx req env
     = ((Some {| DispatchExpandResponse.Metadata := Some {| DispatchCount := 1 |};
                 DispatchExpandResponse.TreeNode := None |},
         Some (status_error codes_Internal "unexpected DispatchExpand error")),
        (d, {| singleFlightCount := singleFlightCount env; world := w |}))) ∧
  (∀ ctx req key w1 v shared err g w2,
     ExpandDispatchKey (keyHandler d) ctx req (world env) = ((key, None), w1) →
     Do _ (expandGroup d) ctx (hex_EncodeToString key)
        (λ ictx, iface_DispatchExpand (delegate d) ictx req) w1
     = ((v, shared, Some err), (g, w2)) →
     (DispatchExpand Do d ctx req env).1
     = (Some {| DispatchExpandResponse.Metadata := Some {| DispatchCount := 1 |};
                DispatchExpandResponse.TreeNode := None |},
        Some err)).
Proof.
  split; [|split; [|split; [|split; [|split]]]].
  - intros ctx req resp err st. apply DispatchCheck_error_response.
  - intros ctx req key e w Hkey. unfold DispatchCheck. by rewrite Hkey.
  - intros ctx req key w1 v shared err g w2 Hkey HDo.
    unfold DispatchCheck. by rewrite Hkey, HDo.
  - intros ctx req resp err st. apply DispatchExpand_error_response.
  - intros ctx req key e w Hkey. unfold DispatchExpand. by rewrite Hkey.
  - intros ctx req key w1 v shared err g w2 Hkey HDo.
    unfold DispatchExpand. by rewrite Hkey, HDo.
Qed.

(** C8. [DispatchReachableResources], [DispatchLookupResources] and
    [DispatchLookupSubjects] return what the delegate returns for the same
    request and stream and act on the world as the delegate does; the
    dispatcher with its two groups and the counter stay as they are. *)
Theorem streaming_operations_pass_through d env :
  (∀ req stream,
     let via := DispatchReachableResources d req stream env in
     let direct := iface_DispatchReachableResources (delegate d) req stream (world env) in
     via.1 = direct.1 ∧ world via.2.2 = direct.2 ∧
     via.2.1 = d ∧ singleFlightCount via.2.2 = singleFlightCount env) ∧
  (∀ req stream,
     let via := DispatchLookupResources d req stream env in
     let direct := iface_DispatchLookupResources (delegate d) req stream (world env) in
     via.1 = direct.1 ∧ world via.2.2 = direct.2 ∧
     via.2.1 = d ∧ singleFlightCount via.2.2 = singleFlightCount env) ∧
  (∀ req stream,
     let via := DispatchLookupSubjects d req stream env in
     let direct := iface_DispatchLookupSubjects (delegate d) req stream (world env) in
     via.1 = direct.1 ∧ world via.2.2 = direct.2 ∧
     via.2.1 = d ∧ singleFlightCount via.2.2 = singleFlightCount env).
Proof.
  split; [|split]; intros req stream via direct; subst via direct.
  - unfold DispatchReachableResources, to_delegate.
    by destruct (iface_DispatchReachableResources _ _ _ _).
  - unfold DispatchLookupResources, to_delegate.
    by destruct (iface_DispatchLookupResources _ _ _ _).
  - unfold DispatchLookupSubjects, to_delegate.
    by destruct (iface_DispatchLookupSubjects _ _ _ _).
Qed.

End singleflight_properties.


(** * The properties at the concrete scenarios *)

Section at_scenarios.
Import v1 graph singleflight scenarios.

Local Abbreviation AND_ a b := (CaveatExpression_Operation CaveatOperation_AND [a; b]).
Local Abbreviation OR_ a b := (CaveatExpression_Operation CaveatOperation_OR [a; b]).
Local Abbreviation NOT_ a := (CaveatExpression_Operation CaveatOperation_NOT [a]).

Local Ltac enumerates_by_computation :=
  unfold enumerates; vm_compute; solve [reflexivity | apply perm_swap].





(** The set left by the intersection above is reachable, and its flag is
    that of its map. *)
Lemma hasDeterminedMember_invariant_witness :
  let ms' :=
    IntersectWith set_r1_r2_order intersect_results
      (list_to_map intersect_results) set_r1_r2 in
  reachable ms' ∧
  (hasDeterminedMember ms' = true ↔ ∃ id, membersByID ms' !! id = Some None).
Proof.
  intros ms'.
  assert (reachable ms') as Hreach.
  { apply reachable_IntersectWith.
    - apply reachable_AddDirectMember, reachable_AddDirectMember, reachable_New.
    - enumerates_by_computation.
    - enumerates_by_computation. }
  split; [exact Hreach|]. exact (hasDeterminedMember_invariant ms' Hreach).
Defined.

(** [{r1: determined, r2: C1}] survives the round trip. *)
Lemma AsCheckResultsMap_UnionWith_roundtrip_witness :
  let order := [("r2", caveated C1); ("r1", member)] in
  enumerates order (AsCheckResultsMap set_r1_r2) ∧
  consistent set_r1_r2 ∧
  UnionWith order NewMembershipSet = set_r1_r2.
Proof.
  intros order.
  assert (enumerates order (AsCheckResultsMap set_r1_r2)) as Henum
    by enumerates_by_computation.
  assert (consistent set_r1_r2) as Hcons.
  { apply consistent_addMember, consistent_addMember, consistent_NewMembershipSet. }
  split; [exact Henum|]. split; [exact Hcons|].
  destruct (AsCheckResultsMap_UnionWith_roundtrip set_r1_r2 order Henum) as (_ & _ & Heq).
  exact (Heq Hcons).
Defined.

(** The dispatcher over the failing delegate: the empty request has no key,
    any other request reaches the delegate, which fails. *)
Lemma error_paths_carry_dispatch_count_witness :
  DispatchCheck solo_Do example_dispatcher "ctx" EmptyString example_env
  = ((Some {| DispatchCheckResponse.Metadata := Some {| DispatchCount := 1 |};
              DispatchCheckResponse.ResultsByResourceId := ∅ |},
      Some (status_error codes_Internal "unexpected DispatchCheck error")),
     (example_dispatcher, example_env)) ∧
  (DispatchCheck solo_Do example_dispatcher "ctx" "document:1" example_env).1
  = (Some {| DispatchCheckResponse.Metadata := Some {| DispatchCount := 1 |};
             DispatchCheckResponse.ResultsByResourceId := ∅ |},
     Some (foreign "check failed")) ∧
  (DispatchExpand solo_Do example_dispatcher "ctx" "document:1" example_env).1
  = (Some {| DispatchExpandResponse.Metadata := Some {| DispatchCount := 1 |};
             DispatchExpandResponse.TreeNode := None |},
     Some (foreign "expand failed")).
Proof.
  destruct (error_paths_carry_dispatch_count solo_Do example_dispatcher example_env)
    as (_ & Hkey & Hdo & _ & _ & Hdo').
  split; [|split].
  - exact (Hkey "ctx" EmptyString [] (foreign "no key") 0%nat eq_refl).
  - exact (Hdo "ctx" "document:1" [x2a] 0%nat None false (foreign "check failed") tt 1%nat
               eq_refl eq_refl).
  - exact (Hdo' "ctx" "document:1" [xff] 0%nat None false (foreign "expand failed") tt 1%nat
                eq_refl eq_refl).
Defined.

End at_scenarios.


(** * Further properties of the membership set *)

Section graph_further_properties.
Import v1 graph.
Context {ContextualizedCaveat : Type}.

Local Abbreviation CE := (CaveatExpression ContextualizedCaveat).
Local Abbreviation RCR := (DispatchCheckResponse_ResourceCheckResult ContextualizedCaveat).
Local Abbreviation MS := (MembershipSet ContextualizedCaveat).

Implicit Types (ms : MS) (id : string) (R : gmap string RCR).

(** Two sets with the same map and flags that are set under the same
    condition are the same set. *)
Lemma MembershipSet_eq ms1 ms2 (P : Prop) :
  membersByID ms1 = membersByID ms2 →
  (hasDeterminedMember ms1 = true ↔ P) →
  (hasDeterminedMember ms2 = true ↔ P) →
  ms1 = ms2.
Proof.
  destruct ms1 as [m1 b1], ms2 as [m2 b2]. simpl. intros -> H1 H2. f_equal.
  destruct b1, b2; try done.
  - symmetry. by apply H2, H1.
  - by apply H1, H2.
Qed.

(** ** [membershipSetFromMap] *)

Lemma membershipSetFromMap_UnionWith (order : list (string * option CE)) :
  membershipSetFromMap order
  = UnionWith
      ((λ entry, (entry.1, {| Membership := DispatchCheckResponse_MEMBER;
                              Expression := entry.2 |})) <$> order)
      NewMembershipSet.
Proof.
  unfold membershipSetFromMap, UnionWith.
  generalize (@NewMembershipSet ContextualizedCaveat).
  induction order as [|[k e] order IH]; intros ms; [done|]. simpl. apply IH.
Qed.

(** X1. [membershipSetFromMap] builds, whatever the order of the range, the
    set whose map is the given map, with the flag set exactly when some id
    of the map has no expression. *)
Theorem membershipSetFromMap_builds (mp : gmap string (option CE)) order :
  enumerates order mp →
  membersByID (membershipSetFromMap order) = mp ∧
  (hasDeterminedMember (membershipSetFromMap order) = true ↔
   ∃ id, mp !! id = Some None).
Proof.
  intros Henum. rewrite membershipSetFromMap_UnionWith.
  set (tagged := (λ entry : string * option CE,
                    (entry.1, {| Membership := DispatchCheckResponse_MEMBER;
                                 Expression := entry.2 |}))).
  assert ((tagged <$> order).*1 = order.*1) as Hkeys.
  { rewrite <- list_fmap_compose. by apply list_fmap_ext. }
  assert (membersByID (UnionWith (tagged <$> order) NewMembershipSet) = mp) as Hmembers.
  { apply map_eq. intros id. destruct (mp !! id) as [e|] eqn:Hid.
    - rewrite (UnionWith_lookup_in _ _ id (tagged (id, e)).2).
      + simpl. by rewrite lookup_empty.
      + rewrite Hkeys. by eapply enumerates_NoDup.
      + apply list_elem_of_fmap. exists (id, e). split; [done|].
        by apply (enumerates_elem_of order mp).
    - rewrite UnionWith_lookup_notin; [done|].
      rewrite Hkeys, (enumerates_keys _ _ _ Henum), Hid. by intros [? ?]. }
  split; [done|].
  pose proof (consistent_UnionWith (tagged <$> order) _
                (@consistent_NewMembershipSet ContextualizedCaveat)) as Hcons.
  unfold consistent in Hcons. by rewrite Hmembers in Hcons.
Qed.

(** ** [AsCheckResultsMap] *)

(** X2. [AsCheckResultsMap] has a result for exactly the ids of the set; the
    result carries the stored expression, and its membership is [MEMBER]
    when the expression is absent and [CAVEATED_MEMBER] when it is there. *)
Theorem AsCheckResultsMap_results ms id :
  (AsCheckResultsMap ms !! id = None ↔ membersByID ms !! id = None) ∧
  (∀ d, AsCheckResultsMap ms !! id = Some d →
     membersByID ms !! id = Some (Expression d) ∧
     (Membership d = DispatchCheckResponse_MEMBER ↔ Expression d = None) ∧
     (Membership d = DispatchCheckResponse_CAVEATED_MEMBER ↔ Expression d ≠ None)).
Proof.
  unfold AsCheckResultsMap. rewrite lookup_fmap.
  destruct (membersByID ms !! id) as [[e|]|]; simpl.
  - split; [done|]. intros d [= <-]. simpl. by repeat split.
  - split; [done|]. intros d [= <-]. simpl. by repeat split.
  - split; [done|]. by intros d.
Qed.

(** ** [IsEmpty] *)

(** X3. [IsEmpty] holds exactly when no id is a member; it holds of the new
    set and fails after any [addMember]. *)
Theorem IsEmpty_no_member ms :
  (IsEmpty ms = true ↔ ∀ id, membersByID ms !! id = None) ∧
  IsEmpty (@NewMembershipSet ContextualizedCaveat) = true ∧
  (∀ id incoming, IsEmpty (addMember id incoming ms) = false).
Proof.
  assert (∀ ms0 : MS, IsEmpty ms0 = true ↔ ∀ id, membersByID ms0 !! id = None) as Hiff.
  { intros ms0. unfold IsEmpty. rewrite bool_decide_eq_true, map_size_empty_iff.
    by rewrite map_empty. }
  split; [apply Hiff|]. split; [done|].
  intros id incoming. apply not_true_is_false. rewrite Hiff. intros Hnone.
  specialize (Hnone id). by rewrite addMember_lookup_eq in Hnone.
Qed.

(** ** Determined members *)

(** X4. A member without expression absorbs every later insertion: an
    [addMember] for its id leaves the set as it is, and after a [UnionWith]
    over any entries the id is still without expression. *)
Theorem determined_member_absorbs ms id :
  membersByID ms !! id = Some None →
  (∀ incoming, addMember id incoming ms = ms) ∧
  (∀ caveat, AddDirectMember id caveat ms = ms) ∧
  (∀ expr parent, AddMemberViaRelationship id expr parent ms = ms) ∧
  (∀ order : list (string * RCR),
     membersByID (UnionWith order ms) !! id = Some None).
Proof.
  intros Hid.
  assert (∀ incoming, addMember id incoming ms = ms) as Hadd.
  { intros incoming. unfold addMember. by rewrite Hid. }
  split; [done|]. split; [intros caveat; apply Hadd|].
  split; [intros expr parent; apply Hadd|].
  intros order. clear Hadd. revert ms Hid.
  induction order as [|[k d] order IH]; intros ms Hid; [done|].
  rewrite UnionWith_cons. simpl. apply IH.
  destruct (decide (k = id)) as [->|Hne].
  - by rewrite addMember_lookup_eq, Hid.
  - by rewrite addMember_lookup_ne.
Qed.

(** X5. After [AddDirectMember] without caveat the id is a member without
    expression, whatever it was before; the flag is then set, provided the
    flag agreed with the map before. *)
Theorem AddDirectMember_without_caveat_determines ms id :
  membersByID (AddDirectMember id None ms) !! id = Some None ∧
  (consistent ms → hasDeterminedMember (AddDirectMember id None ms) = true).
Proof.
  unfold AddDirectMember. simpl. split.
  - rewrite addMember_lookup_eq. by destruct (membersByID ms !! id) as [[e|]|].
  - intros Hms. rewrite addMember_flag.
    destruct (membersByID ms !! id) as [[e|]|] eqn:Hid; simpl;
      rewrite ?orb_true_r; try done.
    rewrite orb_false_r. apply Hms. by exists id.
Qed.

(** X6. On an id that is new to the set, [AddMemberViaRelationship] stores
    the conjunction of the caveat of the parent relationship and the
    expression of the resource; the member is without expression exactly
    when the parent has no caveat and the resource no expression. *)
Theorem AddMemberViaRelationship_new_id ms id expr parent :
  membersByID ms !! id = None →
  membersByID (AddMemberViaRelationship id expr parent ms) !! id
  = Some (caveatAnd (wrapCaveat (Caveat parent)) expr) ∧
  (membersByID (AddMemberViaRelationship id expr parent ms) !! id = Some None ↔
   Caveat parent = None ∧ expr = None).
Proof.
  intros Hid. unfold AddMemberViaRelationship. simpl.
  rewrite addMember_lookup_eq, Hid. simpl. split; [done|].
  destruct (Caveat parent), expr; simpl; split; try done; by intros [? ?].
Qed.

(** ** The order of a range does not matter *)

(** X7. [UnionWith] gives the same set for every order in which the range
    can yield the entries of the results map. *)
Theorem UnionWith_order_independent ms R order1 order2 :
  enumerates order1 R → enumerates order2 R →
  UnionWith order1 ms = UnionWith order2 ms.
Proof.
  intros H1 H2.
  apply (MembershipSet_eq _ _
           (hasDeterminedMember ms = true ∨
            ∃ id d, R !! id = Some d ∧
                    merge_determines (membersByID ms !! id) (Expression d) = true)).
  - apply map_eq. intros id. destruct (R !! id) as [d|] eqn:Hid.
    + rewrite (UnionWith_lookup_in order1 ms id d), (UnionWith_lookup_in order2 ms id d);
        first done; try by eapply enumerates_NoDup.
      * by apply (enumerates_elem_of order2 R).
      * by apply (enumerates_elem_of order1 R).
    + rewrite !UnionWith_lookup_notin; first done.
      * rewrite (enumerates_keys _ _ _ H2), Hid. by intros [? ?].
      * rewrite (enumerates_keys _ _ _ H1), Hid. by intros [? ?].
  - rewrite UnionWith_flag by by eapply enumerates_NoDup.
    by setoid_rewrite (enumerates_elem_of order1 R _ _ H1).
  - rewrite UnionWith_flag by by eapply enumerates_NoDup.
    by setoid_rewrite (enumerates_elem_of order2 R _ _ H2).
Qed.

(** X8. [IntersectWith] gives the same set for all orders of its two
    ranges. *)
Theorem IntersectWith_order_independent ms R mo1 ro1 mo2 ro2 :
  enumerates mo1 (membersByID ms) → enumerates ro1 R →
  enumerates mo2 (membersByID ms) → enumerates ro2 R →
  IntersectWith mo1 ro1 R ms = IntersectWith mo2 ro2 R ms.
Proof.
  intros Hm1 Hr1 Hm2 Hr2.
  apply (MembershipSet_eq _ _
           (∃ id d, R !! id = Some d ∧ membersByID ms !! id = Some None ∧
                    Expression d = None)).
  - apply map_eq. intros id. by rewrite !IntersectWith_lookup.
  - by apply IntersectWith_flag.
  - by apply IntersectWith_flag.
Qed.

(** X9. [Subtract] gives the same set for every order of its range. *)
Theorem Subtract_order_independent ms R mo1 mo2 :
  enumerates mo1 (membersByID ms) → enumerates mo2 (membersByID ms) →
  Subtract mo1 R ms = Subtract mo2 R ms.
Proof.
  intros Hm1 Hm2.
  destruct (Subtract mo1 R ms) as [ms1|] eqn:Hs1; [|by rewrite Subtract_returns in Hs1].
  destruct (Subtract mo2 R ms) as [ms2|] eqn:Hs2; [|by rewrite Subtract_returns in Hs2].
  f_equal.
  apply (MembershipSet_eq _ _ (∃ id, membersByID ms !! id = Some None ∧ R !! id = None)).
  - apply map_eq. intros id.
    by rewrite (Subtract_lookup ms R mo1 ms1 id), (Subtract_lookup ms R mo2 ms2 id).
  - by apply (Subtract_flag ms R mo1).
  - by apply (Subtract_flag ms R mo2).
Qed.

(** ** The ids of the results *)

(** X10. The ids after [UnionWith] are those of the set together with those
    of the results map: no id is lost and none comes from elsewhere. *)
Theorem UnionWith_dom ms R order :
  enumerates order R →
  dom (membersByID (UnionWith order ms)) = dom (membersByID ms) ∪ dom R.
Proof.
  intros Henum. apply set_eq. intros id.
  rewrite elem_of_union, !elem_of_dom.
  destruct (R !! id) as [d|] eqn:Hid.
  - rewrite (UnionWith_lookup_in order ms id d).
    + split; [by right|by eexists].
    + by eapply enumerates_NoDup.
    + by apply (enumerates_elem_of order R).
  - rewrite UnionWith_lookup_notin.
    + split; [by left|]. intros [?|[? ?]]; done.
    + rewrite (enumerates_keys _ _ _ Henum), Hid. by intros [? ?].
Qed.

(** X11. The ids after [IntersectWith] are those the set and the results map
    share; with an empty results map the set ends empty and its flag
    unset. *)
Theorem IntersectWith_dom ms R membersOrder resultsOrder :
  enumerates membersOrder (membersByID ms) → enumerates resultsOrder R →
  let ms' := IntersectWith membersOrder resultsOrder R ms in
  dom (membersByID ms') = dom (membersByID ms) ∩ dom R ∧
  (R = ∅ → IsEmpty ms' = true ∧ hasDeterminedMember ms' = false).
Proof.
  intros Hm Hr ms'. subst ms'. split.
  - apply set_eq. intros id.
    rewrite elem_of_intersection, !elem_of_dom, IntersectWith_lookup by done.
    destruct (R !! id) as [d|].
    + rewrite <- !not_eq_None_Some, fmap_None. by split; [|intros [? _]].
    + split; [by intros [? ?]|]. by intros [_ [? ?]].
  - intros ->. split.
    + unfold IsEmpty. rewrite bool_decide_eq_true, map_size_empty_iff.
      apply map_empty. intros id. by rewrite IntersectWith_lookup, lookup_empty.
    + apply not_true_is_false. rewrite IntersectWith_flag by done.
      intros (id & d & Hid & _). by rewrite lookup_empty in Hid.
Qed.

(** ** Subtracting *)

(** X12. Subtracting results for ids that the set does not have leaves the
    map as it is, and the set as it is when its flag agreed with its map; an
    empty results map is the plainest case. *)
Theorem Subtract_disjoint ms R membersOrder :
  enumerates membersOrder (membersByID ms) →
  (∀ id, is_Some (membersByID ms !! id) → R !! id = None) →
  ∃ ms', Subtract membersOrder R ms = Returned ms' ∧
         membersByID ms' = membersByID ms ∧
         (consistent ms → ms' = ms).
Proof.
  intros Hm Hdisj.
  destruct (Subtract membersOrder R ms) as [ms'|] eqn:Hsub;
    [|by rewrite Subtract_returns in Hsub].
  exists ms'. split; [done|].
  assert (membersByID ms' = membersByID ms) as Hmembers.
  { apply map_eq. intros id. rewrite (Subtract_lookup ms R membersOrder ms' id) by done.
    destruct (membersByID ms !! id) as [e|] eqn:Hid; [|done].
    by rewrite (Hdisj id) by by rewrite Hid. }
  split; [done|]. intros Hms.
  apply (MembershipSet_eq _ _ (∃ id, membersByID ms !! id = Some None));
    [done| |done].
  rewrite (Subtract_flag ms R membersOrder ms') by done. split.
  - intros (id & Hid & _). by exists id.
  - intros (id & Hid). exists id. split; [done|]. apply Hdisj. by rewrite Hid.
Qed.

(** X13. Subtracting from a set its own results map: the members without
    expression are deleted, a member with expression [e] is left with
    [AND [e; NOT [e]]], and the flag ends unset. *)
Theorem Subtract_own_results ms membersOrder :
  enumerates membersOrder (membersByID ms) →
  ∃ ms', Subtract membersOrder (AsCheckResultsMap ms) ms = Returned ms' ∧
         hasDeterminedMember ms' = false ∧
         ∀ id, membersByID ms' !! id
               = match membersByID ms !! id with
                 | Some (Some e) =>
                     Some (Some (CaveatExpression_Operation CaveatOperation_AND
                                   [Some e;
                                    Some (CaveatExpression_Operation CaveatOperation_NOT
                                            [Some e])]))
                 | _ => None
                 end.
Proof.
  intros Hm.
  destruct (Subtract membersOrder (AsCheckResultsMap ms) ms) as [ms'|] eqn:Hsub;
    [|by rewrite Subtract_returns in Hsub].
  exists ms'. split; [done|]. split.
  - apply not_true_is_false.
    rewrite (Subtract_flag ms _ membersOrder ms') by done.
    intros (id & Hid & Hnone). unfold AsCheckResultsMap in Hnone.
    by rewrite lookup_fmap, Hid in Hnone.
  - intros id. rewrite (Subtract_lookup ms _ membersOrder ms' id) by done.
    unfold AsCheckResultsMap. rewrite lookup_fmap.
    by destruct (membersByID ms !! id) as [[e|]|].
Qed.

(** ** The combinators and the absent expression *)

(** X14. The combinators never turn an expression that is there into an
    absent one: [caveatOr] and [caveatAnd] are absent only when both
    arguments are, [invert] is never absent, and what [caveatSub] returns is
    never absent. *)
Theorem combinators_keep_presence (a b : option CE) :
  is_nil (caveatOr a b) = is_nil a && is_nil b ∧
  is_nil (caveatAnd a b) = is_nil a && is_nil b ∧
  is_nil (invert a) = false ∧
  (∀ v, caveatSub a b = Returned v → is_nil v = false).
Proof.
  split; [by destruct a, b|]. split; [by destruct a, b|]. split; [done|].
  intros v. destruct a, b; simpl; intros [= <-]; done.
Qed.

(** ** Two unions in either order *)

Lemma merged_is_nil (existing : option (option CE)) incoming :
  is_nil (merged existing incoming)
  = match existing with Some None => true | _ => is_nil incoming end.
Proof. by destruct existing as [[e|]|], incoming. Qed.

Lemma UnionWith_lookup_is_nil ms R order id :
  enumerates order R →
  is_nil <$> membersByID (UnionWith order ms) !! id
  = match R !! id with
    | None => is_nil <$> membersByID ms !! id
    | Some d =>
        Some (match membersByID ms !! id with
              | Some None => true
              | _ => is_nil (Expression d)
              end)
    end.
Proof.
  intros Henum. destruct (R !! id) as [d|] eqn:Hid.
  - rewrite (UnionWith_lookup_in order ms id d).
    + simpl. by rewrite merged_is_nil.
    + by eapply enumerates_NoDup.
    + by apply (enumerates_elem_of order R).
  - rewrite UnionWith_lookup_notin; [done|].
    rewrite (enumerates_keys _ _ _ Henum), Hid. by intros [? ?].
Qed.

(** X15. Two unions commute as far as membership goes: taking in two results
    maps in either order gives the same ids, the same ids without
    expression, and, for a set whose flag agreed with its map, the same
    flag.  (The expressions themselves list their children in the order of
    the unions.) *)
Theorem UnionWith_twice_either_order ms R1 R2 order1 order2 :
  enumerates order1 R1 → enumerates order2 R2 →
  let ms12 := UnionWith order2 (UnionWith order1 ms) in
  let ms21 := UnionWith order1 (UnionWith order2 ms) in
  (∀ id, is_nil <$> membersByID ms12 !! id = is_nil <$> membersByID ms21 !! id) ∧
  (consistent ms → hasDeterminedMember ms12 = hasDeterminedMember ms21).
Proof.
  intros H1 H2 ms12 ms21.
  assert (∀ id, is_nil <$> membersByID ms12 !! id = is_nil <$> membersByID ms21 !! id)
    as Hnil.
  { intros id. subst ms12 ms21.
    rewrite (UnionWith_lookup_is_nil (UnionWith order1 ms) R2 order2 id H2).
    rewrite (UnionWith_lookup_is_nil (UnionWith order2 ms) R1 order1 id H1).
    pose proof (UnionWith_lookup_is_nil ms R1 order1 id H1) as Hl1.
    pose proof (UnionWith_lookup_is_nil ms R2 order2 id H2) as Hl2.
    destruct (R1 !! id) as [d1|], (R2 !! id) as [d2|].
    - f_equal.
      destruct (membersByID (UnionWith order1 ms) !! id) as [[?|]|],
               (membersByID (UnionWith order2 ms) !! id) as [[?|]|],
               (membersByID ms !! id) as [[?|]|],
               (Expression d1), (Expression d2); simpl in *; congruence.
    - rewrite Hl1. f_equal.
      destruct (membersByID (UnionWith order2 ms) !! id) as [[?|]|],
               (membersByID ms !! id) as [[?|]|]; simpl in *; congruence.
    - rewrite Hl2. f_equal.
      destruct (membersByID (UnionWith order1 ms) !! id) as [[?|]|],
               (membersByID ms !! id) as [[?|]|]; simpl in *; congruence.
    - by rewrite Hl1, Hl2. }
  split; [done|]. intros Hms.
  assert (consistent ms12) as Hc12 by by do 2 apply consistent_UnionWith.
  assert (consistent ms21) as Hc21 by by do 2 apply consistent_UnionWith.
  assert (∀ m1 m2 : MS,
            (∀ id, is_nil <$> membersByID m1 !! id = is_nil <$> membersByID m2 !! id) →
            (∃ id, membersByID m1 !! id = Some None) →
            ∃ id, membersByID m2 !! id = Some None) as Hex.
  { intros m1 m2 Heq [id Hid]. exists id. specialize (Heq id). rewrite Hid in Heq.
    by destruct (membersByID m2 !! id) as [[?|]|]. }
  unfold consistent in Hc12, Hc21.
  destruct (hasDeterminedMember ms12) eqn:E12, (hasDeterminedMember ms21) eqn:E21;
    try done.
  - assert (true = true) as Ht by done. apply Hc12 in Ht.
    apply (Hex ms12 ms21 Hnil), Hc21 in Ht. done.
  - assert (true = true) as Ht by done. apply Hc21 in Ht.
    apply (Hex ms21 ms12), Hc12 in Ht; [done|]. intros id. by rewrite Hnil.
Qed.

End graph_further_properties.


(** * Further properties of the single-flight dispatcher *)

Section singleflight_further_properties.
Import v1 singleflight.
Context {ContextualizedCaveat RelationTupleTreeNode : Type}.
Context {context_Context : Type}.
Context {DispatchCheckRequest DispatchExpandRequest : Type}.
Context {DispatchReachableResourcesRequest DispatchLookupResourcesRequest
         DispatchLookupSubjectsRequest : Type}.
Context {ReachableResourcesStream LookupResourcesStream LookupSubjectsStream : Type}.
Context {dispatch_ReadyState : Type}.
Context {foreign_error : Type}.
Context {World : Type}.
Context {Group : Type → Type}.

Local Abbreviation SFD :=
  (@Dispatcher ContextualizedCaveat RelationTupleTreeNode context_Context
     DispatchCheckRequest DispatchExpandRequest
     DispatchReachableResourcesRequest DispatchLookupResourcesRequest
     DispatchLookupSubjectsRequest
     ReachableResourcesStream LookupResourcesStream LookupSubjectsStream
     dispatch_ReadyState foreign_error World Group).
Local Abbreviation Do_type := (@Group_Do_type context_Context foreign_error World Group).

Implicit Types (d : SFD) (Do : Do_type) (env : @Env World).

(** ** The key of the group *)

Lemma hex_digits_of_byte (b : byte) :
  Byte.of_N (16 * hex_value (hex_digit (N.shiftr (Byte.to_N b) 4))
             + hex_value (hex_digit (N.land (Byte.to_N b) 15)))
  = Some b.
Proof. destruct b; reflexivity. Qed.

(** X16. The hexadecimal key has two characters for each byte of the
    fingerprint, and two fingerprints with the same key are the same
    fingerprint: the encoding makes no two keys collide. *)
Theorem hex_EncodeToString_injective (key1 key2 : list byte) :
  String.length (hex_EncodeToString key1) = (2 * length key1)%nat ∧
  (hex_EncodeToString key1 = hex_EncodeToString key2 → key1 = key2).
Proof.
  split.
  - induction key1 as [|b key1 IH]; [done|]. simpl. rewrite IH. lia.
  - revert key2. induction key1 as [|b1 key1 IH]; intros [|b2 key2]; try done.
    simpl. intros [= Hhi Hlo Hrest]. f_equal; [|by apply IH].
    pose proof (hex_digits_of_byte b1) as H1.
    pose proof (hex_digits_of_byte b2) as H2.
    rewrite Hhi, Hlo in H1. congruence.
Qed.

(** ** The counter *)

Lemma CounterVec_Inc_value (incremented labelValues : list string) vec :
  CounterVec_value labelValues (CounterVec_Inc incremented vec)
  = (CounterVec_value labelValues vec
     + if decide (labelValues = incremented) then 1 else 0)%nat.
Proof.
  unfold CounterVec_value, CounterVec_Inc. case_decide as Heq.
  - subst. rewrite lookup_insert_eq. simpl. lia.
  - rewrite lookup_insert_ne by done. lia.
Qed.

(** X17. A [DispatchCheck] whose key handler gives a key adds one to the
    counter labelled [DispatchCheck] and with what [Group.Do] says of
    sharing, whether the call ends in an error or not, and leaves every other
    counter as it is; a [DispatchCheck] whose key handler fails leaves all
    counters as they are.  Likewise [DispatchExpand]. *)
Theorem singleFlightCount_incremented_once Do d ctx env :
  (∀ req key w1 v shared err g w2 labelValues,
     CheckDispatchKey (keyHandler d) ctx req (world env) = ((key, None), w1) →
     Do _ (checkGroup d) ctx (hex_EncodeToString key)
        (λ innerCtx, iface_DispatchCheck (delegate d) innerCtx req) w1
     = ((v, shared, err), (g, w2)) →
     CounterVec_value labelValues
       (singleFlightCount (DispatchCheck Do d ctx req env).2.2)
     = (CounterVec_value labelValues (singleFlightCount env)
        + if decide (labelValues = ["DispatchCheck"; strconv_FormatBool shared])
          then 1 else 0)%nat) ∧
  (∀ req key e w,
     CheckDispatchKey (keyHandler d) ctx req (world env) = ((key, Some e), w) →
     singleFlightCount (DispatchCheck Do d ctx req env).2.2 = singleFlightCount env) ∧
  (∀ req key w1 v shared err g w2 labelValues,
     ExpandDispatchKey (keyHandler d) ctx req (world env) = ((key, None), w1) →
     Do _ (expandGroup d) ctx (hex_EncodeToString key)
        (λ ictx, iface_DispatchExpand (delegate d) ictx req) w1
     = ((v, shared, err), (g, w2)) →
     CounterVec_value labelValues
       (singleFlightCount (DispatchExpand Do d ctx req env).2.2)
     = (CounterVec_value labelValues (singleFlightCount env)
        + if decide (labelValues = ["DispatchExpand"; strconv_FormatBool shared])
          then 1 else 0)%nat) ∧
  (∀ req key e w,
     ExpandDispatchKey (keyHandler d) ctx req (world env) = ((key, Some e), w) →
     singleFlightCount (DispatchExpand Do d ctx req env).2.2 = singleFlightCount env).
Proof.
  split; [|split; [|split]].
  - intros req key w1 v shared err g w2 labelValues Hkey HDo.
    unfold DispatchCheck. rewrite Hkey, HDo.
    destruct err; simpl; apply CounterVec_Inc_value.
  - intros req key e w Hkey. unfold DispatchCheck. by rewrite Hkey.
  - intros req key w1 v shared err g w2 labelValues Hkey HDo.
    unfold DispatchExpand. rewrite Hkey, HDo.
    destruct err; simpl; apply CounterVec_Inc_value.
  - intros req key e w Hkey. unfold DispatchExpand. by rewrite Hkey.
Qed.

(** ** Success *)

(** X18. [DispatchCheck] and [DispatchExpand] return without error exactly
    the value that [Group.Do] hands back without error: when the key handler
    gives a key and [Group.Do] a value without error, that value is returned
    as it is, [nil] included; and a return without error comes about in no
    other way, so the dispatcher never makes up or alters a response of a
    call that succeeds. *)
Theorem dispatch_success_returns_group_value Do d ctx env :
  (∀ req key w1 v shared g w2,
     CheckDispatchKey (keyHandler d) ctx req (world env) = ((key, None), w1) →
     Do _ (checkGroup d) ctx (hex_EncodeToString key)
        (λ innerCtx, iface_DispatchCheck (delegate d) innerCtx req) w1
     = ((v, shared, None), (g, w2)) →
     let result := DispatchCheck Do d ctx req env in
     result.1 = (v, None) ∧ checkGroup result.2.1 = g ∧ world result.2.2 = w2) ∧
  (∀ req resp st,
     DispatchCheck Do d ctx req env = ((resp, None), st) →
     ∃ key w1 shared g w2,
       CheckDispatchKey (keyHandler d) ctx req (world env) = ((key, None), w1) ∧
       Do _ (checkGroup d) ctx (hex_EncodeToString key)
          (λ innerCtx, iface_DispatchCheck (delegate d) innerCtx req) w1
       = ((resp, shared, None), (g, w2))) ∧
  (∀ req key w1 v shared g w2,
     ExpandDispatchKey (keyHandler d) ctx req (world env) = ((key, None), w1) →
     Do _ (expandGroup d) ctx (hex_EncodeToString key)
        (λ ictx, iface_DispatchExpand (delegate d) ictx req) w1
     = ((v, shared, None), (g, w2)) →
     let result := DispatchExpand Do d ctx req env in
     result.1 = (v, None) ∧ expandGroup result.2.1 = g ∧ world result.2.2 = w2) ∧
  (∀ req resp st,
     DispatchExpand Do d ctx req env = ((resp, None), st) →
     ∃ key w1 shared g w2,
       ExpandDispatchKey (keyHandler d) ctx req (world env) = ((key, None), w1) ∧
       Do _ (expandGroup d) ctx (hex_EncodeToString key)
          (λ ictx, iface_DispatchExpand (delegate d) ictx req) w1
       = ((resp, shared, None), (g, w2))).
Proof.
  split; [|split; [|split]].
  - intros req key w1 v shared g w2 Hkey HDo result. subst result.
    unfold DispatchCheck. by rewrite Hkey, HDo.
  - intros req resp st. unfold DispatchCheck.
    destruct (CheckDispatchKey _ _ _ _) as [[key [e|]] w1]; [intros Heq; discriminate Heq|].
    destruct (Do _ _ _ _ _ _) as [[[v shared] [e|]] [g w2]] eqn:HDo;
      [intros Heq; discriminate Heq|].
    intros [= <- _]. by exists key, w1, shared, g, w2.
  - intros req key w1 v shared g w2 Hkey HDo result. subst result.
    unfold DispatchExpand. by rewrite Hkey, HDo.
  - intros req resp st. unfold DispatchExpand.
    destruct (ExpandDispatchKey _ _ _ _) as [[key [e|]] w1]; [intros Heq; discriminate Heq|].
    destruct (Do _ _ _ _ _ _) as [[[v shared] [e|]] [g w2]] eqn:HDo;
      [intros Heq; discriminate Heq|].
    intros [= <- _]. by exists key, w1, shared, g, w2.
Qed.

(** ** What a call leaves alone *)

(** X19. Whatever the key handler and [Group.Do] do, [DispatchCheck] keeps
    the delegate, the key handler and the group of the expands, and
    [DispatchExpand] keeps the delegate, the key handler and the group of
    the checks: checks and expands are never coalesced with one another. *)
Theorem check_and_expand_groups_are_separate Do d ctx env :
  (∀ req,
     let d' := (DispatchCheck Do d ctx req env).2.1 in
     delegate d' = delegate d ∧ keyHandler d' = keyHandler d ∧
     expandGroup d' = expandGroup d) ∧
  (∀ req,
     let d' := (DispatchExpand Do d ctx req env).2.1 in
     delegate d' = delegate d ∧ keyHandler d' = keyHandler d ∧
     checkGroup d' = checkGroup d).
Proof.
  split; intros req d'; subst d'.
  - unfold DispatchCheck.
    destruct (CheckDispatchKey _ _ _ _) as [[key [e|]] w1]; [done|].
    by destruct (Do _ _ _ _ _ _) as [[[v shared] [e|]] [g w2]].
  - unfold DispatchExpand.
    destruct (ExpandDispatchKey _ _ _ _) as [[key [e|]] w1]; [done|].
    by destruct (Do _ _ _ _ _ _) as [[[v shared] [e|]] [g w2]].
Qed.

(** [Close] and [ReadyState] return what the delegate returns and act
    on the world as the delegate does; the dispatcher and the counter stay
    as they are. *)
Lemma Close_and_ReadyState_pass_through d env :
  (let via := Close d env in
   let direct := iface_Close (delegate d) (world env) in
   via.1 = direct.1 ∧ world via.2.2 = direct.2 ∧
   via.2.1 = d ∧ singleFlightCount via.2.2 = singleFlightCount env) ∧
  (let via := ReadyState d env in
   let direct := iface_ReadyState (delegate d) (world env) in
   via.1 = direct.1 ∧ world via.2.2 = direct.2 ∧
   via.2.1 = d ∧ singleFlightCount via.2.2 = singleFlightCount env).
Proof.
  split; intros via direct; subst via direct.
  - unfold Close, to_delegate. by destruct (iface_Close _ _).
  - unfold ReadyState, to_delegate. by destruct (iface_ReadyState _ _).
Qed.

End singleflight_further_properties.


(** * The further properties at the concrete scenarios *)

Section further_at_scenarios.
Import v1 graph singleflight scenarios further_scenarios.

Local Abbreviation AND_ a b := (CaveatExpression_Operation CaveatOperation_AND [a; b]).
Local Abbreviation NOT_ a := (CaveatExpression_Operation CaveatOperation_NOT [a]).

Local Ltac enumerates_by_computation :=
  unfold enumerates; vm_compute; solve [reflexivity | apply perm_swap].

Lemma membershipSetFromMap_builds_witness :
  enumerates set_r1_r2_order (membersByID set_r1_r2) ∧
  membersByID (membershipSetFromMap set_r1_r2_order) = membersByID set_r1_r2.
Proof.
  assert (enumerates set_r1_r2_order (membersByID set_r1_r2)) as Henum
    by enumerates_by_computation.
  split; [exact Henum|].
  exact (proj1 (membershipSetFromMap_builds _ _ Henum)).
Defined.

Lemma AsCheckResultsMap_results_witness :
  AsCheckResultsMap set_r1_r2 !! "r2" = Some (caveated C1) ∧
  membersByID set_r1_r2 !! "r2" = Some (Some C1).
Proof.
  split; [reflexivity|].
  destruct (AsCheckResultsMap_results set_r1_r2 "r2") as (_ & Hresult).
  exact (proj1 (Hresult (caveated C1) eq_refl)).
Defined.

Lemma IsEmpty_no_member_witness :
  (∀ id, membersByID (@NewMembershipSet string) !! id = None) ∧
  IsEmpty (@NewMembershipSet string) = true ∧
  IsEmpty set_r1 = false.
Proof.
  destruct (IsEmpty_no_member (@NewMembershipSet string)) as (Hiff & Hnew & Hadd).
  split; [intros id; apply lookup_empty|].
  split; [apply Hiff; intros id; apply lookup_empty|].
  exact (Hadd "r1" (Some C1)).
Defined.

Lemma determined_member_absorbs_witness :
  membersByID set_r1_r2 !! "r1" = Some None ∧
  AddDirectMember "r1" (Some "C2") set_r1_r2 = set_r1_r2 ∧
  membersByID (UnionWith union_results set_r1_r2) !! "r1" = Some None.
Proof.
  destruct (determined_member_absorbs set_r1_r2 "r1" eq_refl) as (_ & Hdirect & _ & Hunion).
  split; [reflexivity|]. split; [exact (Hdirect (Some "C2"))|exact (Hunion union_results)].
Defined.

Lemma AddDirectMember_without_caveat_determines_witness :
  consistent set_r1 ∧
  hasDeterminedMember (AddDirectMember "r1" None set_r1) = true.
Proof.
  assert (consistent set_r1) as Hcons.
  { apply consistent_addMember, consistent_NewMembershipSet. }
  split; [exact Hcons|].
  exact (proj2 (AddDirectMember_without_caveat_determines set_r1 "r1") Hcons).
Defined.

Lemma AddMemberViaRelationship_new_id_witness :
  membersByID (@NewMembershipSet string) !! "r1" = None ∧
  membersByID
    (AddMemberViaRelationship "r1" (Some C2) {| Caveat := Some "C1" |} NewMembershipSet)
    !! "r1"
  = Some (Some (AND_ (Some C1) (Some C2))).
Proof.
  split; [reflexivity|].
  exact (proj1 (AddMemberViaRelationship_new_id NewMembershipSet "r1" (Some C2)
                  {| Caveat := Some "C1" |} eq_refl)).
Defined.

Lemma UnionWith_order_independent_witness :
  enumerates union_results (list_to_map union_results) ∧
  enumerates union_results_other_order (list_to_map union_results) ∧
  UnionWith union_results set_r1 = UnionWith union_results_other_order set_r1.
Proof.
  assert (enumerates union_results (list_to_map union_results)) as H1
    by enumerates_by_computation.
  assert (enumerates union_results_other_order (list_to_map union_results)) as H2
    by enumerates_by_computation.
  split; [exact H1|]. split; [exact H2|].
  exact (UnionWith_order_independent set_r1 _ _ _ H1 H2).
Defined.

Lemma IntersectWith_order_independent_witness :
  let R := list_to_map intersect_results in
  let mo := [("r1", None); ("r2", Some C1)] in
  let ro := [("r3", caveated C2); ("r2", member)] in
  enumerates set_r1_r2_order (membersByID set_r1_r2) ∧ enumerates intersect_results R ∧
  enumerates mo (membersByID set_r1_r2) ∧ enumerates ro R ∧
  IntersectWith set_r1_r2_order intersect_results R set_r1_r2
  = IntersectWith mo ro R set_r1_r2.
Proof.
  intros R mo ro.
  assert (enumerates set_r1_r2_order (membersByID set_r1_r2)) as Hm1
    by enumerates_by_computation.
  assert (enumerates intersect_results R) as Hr1 by enumerates_by_computation.
  assert (enumerates mo (membersByID set_r1_r2)) as Hm2 by enumerates_by_computation.
  assert (enumerates ro R) as Hr2 by enumerates_by_computation.
  repeat (split; [assumption|]).
  exact (IntersectWith_order_independent set_r1_r2 R _ _ _ _ Hm1 Hr1 Hm2 Hr2).
Defined.

Lemma Subtract_order_independent_witness :
  let R := list_to_map subtract_results in
  let mo := [("r1", Some C1); ("r2", None)] in
  enumerates set_for_subtract_order (membersByID set_for_subtract) ∧
  enumerates mo (membersByID set_for_subtract) ∧
  Subtract set_for_subtract_order R set_for_subtract = Subtract mo R set_for_subtract.
Proof.
  intros R mo.
  assert (enumerates set_for_subtract_order (membersByID set_for_subtract)) as Hm1
    by enumerates_by_computation.
  assert (enumerates mo (membersByID set_for_subtract)) as Hm2
    by enumerates_by_computation.
  repeat (split; [assumption|]).
  exact (Subtract_order_independent set_for_subtract R _ _ Hm1 Hm2).
Defined.

Lemma UnionWith_dom_witness :
  enumerates union_results (list_to_map union_results) ∧
  dom (membersByID (UnionWith union_results set_r1))
  = dom (membersByID set_r1)
    ∪ dom (list_to_map union_results
             : gmap string (DispatchCheckResponse_ResourceCheckResult string)).
Proof.
  assert (enumerates union_results (list_to_map union_results)) as Henum
    by enumerates_by_computation.
  split; [exact Henum|]. exact (UnionWith_dom set_r1 _ _ Henum).
Defined.

Lemma IntersectWith_dom_witness :
  let ms' := IntersectWith set_r1_r2_order [] ∅ set_r1_r2 in
  enumerates set_r1_r2_order (membersByID set_r1_r2) ∧
  IsEmpty ms' = true ∧ hasDeterminedMember ms' = false.
Proof.
  intros ms'.
  assert (enumerates set_r1_r2_order (membersByID set_r1_r2)) as Hm
    by enumerates_by_computation.
  assert (enumerates [] (∅ : gmap string (DispatchCheckResponse_ResourceCheckResult string)))
    as Hr by enumerates_by_computation.
  split; [exact Hm|].
  exact (proj2 (IntersectWith_dom set_r1_r2 ∅ _ _ Hm Hr) eq_refl).
Defined.

Lemma Subtract_disjoint_witness :
  enumerates set_r1_r2_order (membersByID set_r1_r2) ∧
  consistent set_r1_r2 ∧
  ∃ ms', Subtract set_r1_r2_order ∅ set_r1_r2 = Returned ms' ∧ ms' = set_r1_r2.
Proof.
  assert (enumerates set_r1_r2_order (membersByID set_r1_r2)) as Hm
    by enumerates_by_computation.
  assert (consistent set_r1_r2) as Hcons.
  { apply consistent_addMember, consistent_addMember, consistent_NewMembershipSet. }
  split; [exact Hm|]. split; [exact Hcons|].
  destruct (Subtract_disjoint set_r1_r2 ∅ set_r1_r2_order Hm
              (λ id _, lookup_empty id)) as (ms' & Hsub & _ & Heq).
  exists ms'. split; [exact Hsub|exact (Heq Hcons)].
Defined.

Lemma Subtract_own_results_witness :
  enumerates set_r1_r2_order (membersByID set_r1_r2) ∧
  ∃ ms', Subtract set_r1_r2_order (AsCheckResultsMap set_r1_r2) set_r1_r2 = Returned ms' ∧
         hasDeterminedMember ms' = false ∧
         membersByID ms' !! "r1" = None ∧
         membersByID ms' !! "r2" = Some (Some (AND_ (Some C1) (Some (NOT_ (Some C1))))).
Proof.
  assert (enumerates set_r1_r2_order (membersByID set_r1_r2)) as Hm
    by enumerates_by_computation.
  split; [exact Hm|].
  destruct (Subtract_own_results set_r1_r2 set_r1_r2_order Hm)
    as (ms' & Hsub & Hflag & Hlookup).
  exists ms'. split; [exact Hsub|]. split; [exact Hflag|].
  split; [exact (Hlookup "r1")|exact (Hlookup "r2")].
Defined.

Lemma combinators_keep_presence_witness :
  caveatSub (Some C1) (Some C2) = Returned (Some (AND_ (Some C1) (Some (NOT_ (Some C2))))) ∧
  is_nil (Some (AND_ (Some C1) (Some (NOT_ (Some C2))))) = false.
Proof.
  split; [reflexivity|].
  destruct (combinators_keep_presence (Some C1) (Some C2)) as (_ & _ & _ & Hsub).
  exact (Hsub _ eq_refl).
Defined.

Lemma UnionWith_twice_either_order_witness :
  let R1 := list_to_map union_results in
  let R2 := list_to_map intersect_results in
  enumerates union_results R1 ∧ enumerates intersect_results R2 ∧
  consistent set_r1 ∧
  hasDeterminedMember (UnionWith intersect_results (UnionWith union_results set_r1))
  = hasDeterminedMember (UnionWith union_results (UnionWith intersect_results set_r1)).
Proof.
  intros R1 R2.
  assert (enumerates union_results R1) as H1 by enumerates_by_computation.
  assert (enumerates intersect_results R2) as H2 by enumerates_by_computation.
  assert (consistent set_r1) as Hcons.
  { apply consistent_addMember, consistent_NewMembershipSet. }
  repeat (split; [assumption|]).
  exact (proj2 (UnionWith_twice_either_order set_r1 R1 R2 _ _ H1 H2) Hcons).
Defined.

Lemma hex_EncodeToString_injective_witness :
  hex_EncodeToString [x2a; xff] = "2aff" ∧
  hex_EncodeToString [x2a; xff] = hex_EncodeToString (rev [xff; x2a]) ∧
  [x2a; xff] = rev [xff; x2a] ∧
  String.length (hex_EncodeToString [x2a; xff]) = 4%nat.
Proof.
  destruct (hex_EncodeToString_injective [x2a; xff] (rev [xff; x2a])) as (Hlen & Hinj).
  split; [reflexivity|]. split; [reflexivity|]. split; [exact (Hinj eq_refl)|exact Hlen].
Defined.

Lemma singleFlightCount_incremented_once_witness :
  CounterVec_value ["DispatchCheck"; "false"]
    (singleFlightCount
       (DispatchCheck solo_Do example_dispatcher "ctx" "document:1" example_env).2.2)
  = 1%nat ∧
  CounterVec_value ["DispatchCheck"; "true"]
    (singleFlightCount
       (DispatchCheck solo_Do example_dispatcher "ctx" "document:1" example_env).2.2)
  = 0%nat ∧
  singleFlightCount
    (DispatchCheck solo_Do example_dispatcher "ctx" EmptyString example_env).2.2
  = singleFlightCount example_env.
Proof.
  destruct (singleFlightCount_incremented_once solo_Do example_dispatcher "ctx" example_env)
    as (Hinc & Hkeep & _ & _).
  split; [|split].
  - exact (Hinc "document:1" [x2a] 0%nat None false (Some (foreign "check failed")) tt 1%nat
             ["DispatchCheck"; "false"] eq_refl eq_refl).
  - exact (Hinc "document:1" [x2a] 0%nat None false (Some (foreign "check failed")) tt 1%nat
             ["DispatchCheck"; "true"] eq_refl eq_refl).
  - exact (Hkeep EmptyString [] (foreign "no key") 0%nat eq_refl).
Defined.

Lemma dispatch_success_returns_group_value_witness :
  (DispatchCheck solo_Do answering_dispatcher "ctx" "document:1" example_env).1
  = (Some check_answer, None) ∧
  (DispatchExpand solo_Do answering_dispatcher "ctx" "document:1" example_env).1
  = (Some expand_answer, None).
Proof.
  destruct (dispatch_success_returns_group_value solo_Do answering_dispatcher "ctx"
              example_env) as (Hcheck & _ & Hexpand & _).
  split.
  - exact (proj1 (Hcheck "document:1" [x2a] 0%nat (Some check_answer) false tt 1%nat
                    eq_refl eq_refl)).
  - exact (proj1 (Hexpand "document:1" [xff] 0%nat (Some expand_answer) false tt 1%nat
                    eq_refl eq_refl)).
Defined.

End further_at_scenarios.
